(** * meteor-up: server-info probe protocol and command dispatch

    A shallow embedding of [src/server-info.js] (the multi-probe remote
    execution protocol and the fleet orchestrator) and of the command/hook
    dispatch engine exercised by [src/__tests__/plugin-api.unit.js].

    JavaScript strings are modelled by [string]: every character is one
    code unit, so the model covers the strings whose code units are below
    256.  The library primitives the source calls ([String.prototype.split],
    [trim], [indexOf], [Array.prototype.join], [parseInt], [JSON.parse],
    bluebird's [map]) are modelled here from their ECMAScript / bluebird
    definitions; the functions of the repository are translated from the
    source, keeping its names. *)

From Stdlib Require Import Ascii ZArith Lia Bool List.
From Stdlib Require Import DecimalNat DecimalString.
From stdpp Require Import gmap strings list fin_maps.

Local Open Scope stdpp_scope.

(* stdpp blocks the unfolding of string concatenation by [simpl]. *)
Local Arguments String.append !_ _ : simpl nomatch.

(* ===================================================================== *)
(** * Part I: definitions                                                 *)
(* ===================================================================== *)

(** ** JavaScript string primitives *)

Definition nl : string := String "010"%char "".
Definition dquote : string := String "034"%char "".

Fixpoint slen (s : string) : nat :=
  match s with
  | EmptyString => 0
  | String _ s' => S (slen s')
  end.

(** [s.substring(n)] *)
Fixpoint sdrop (n : nat) (s : string) : string :=
  match n, s with
  | O, _ => s
  | S n', String _ s' => sdrop n' s'
  | S _, EmptyString => EmptyString
  end.

(** [s.startsWith(p)], the test [split] and [indexOf] perform at each
    position. *)
Fixpoint starts (p s : string) : bool :=
  match p, s with
  | EmptyString, _ => true
  | String a p', String b s' => Ascii.eqb a b && starts p' s'
  | String _ _, EmptyString => false
  end.

(** [s.indexOf(p) !== -1] *)
Fixpoint occurs (p s : string) : bool :=
  starts p s ||
  match s with
  | EmptyString => false
  | String _ s' => occurs p s'
  end.

(** [split_from sep skip s] scans [s] from left to right.  [skip] is the
    number of characters of a separator occurrence still to be passed over;
    the result is the piece under construction and the pieces after it. *)
Fixpoint split_from (sep : string) (skip : nat) (s : string)
  : string * list string :=
  match s with
  | EmptyString => (EmptyString, [])
  | String c s' =>
      match skip with
      | S k => split_from sep k s'
      | O =>
          if starts sep s
          then (EmptyString,
                 let r := split_from sep (slen sep - 1) s' in fst r :: snd r)
          else let r := split_from sep 0 s' in (String c (fst r), snd r)
      end
  end.

(** [s.split(sep)] for a string separator: the pieces between the
    successive non-overlapping occurrences of [sep], found from the left.
    With the empty separator the string is cut into its code units. *)
Definition split (sep s : string) : list string :=
  match sep with
  | EmptyString =>
      List.map (fun c => String c EmptyString) (String.list_ascii_of_string s)
  | String _ _ => let r := split_from sep 0 s in fst r :: snd r
  end.

(** [l.join(sep)] *)
Fixpoint join (sep : string) (l : list string) : string :=
  match l with
  | [] => EmptyString
  | [x] => x
  | x :: l' => x +:+ sep +:+ join sep l'
  end.

(** *** Occurrences of a separator across a boundary

    The conditions under which [split] provably cuts a concatenation where
    it was put together. *)

(** No occurrence of [sep] in [a +:+ r] starts inside [a]. *)
Fixpoint nomatch (sep a r : string) : Prop :=
  match a with
  | EmptyString => True
  | String _ a' => starts sep (a +:+ r) = false /\ nomatch sep a' r
  end.

(** One of the two strings is at the head of the other. *)
Definition compat (x y : string) : bool := starts x y || starts y x.

Fixpoint clash_from (t y : string) : bool :=
  match t with
  | EmptyString => false
  | String _ t' => compat t y || clash_from t' y
  end.

(** Some proper non-empty end of [sep] can run into a text that starts
    with [y]. *)
Definition clash (sep y : string) : bool :=
  match sep with
  | EmptyString => false
  | String _ t => clash_from t y
  end.

(** No occurrence of [sep] in [a +:+ y +:+ ...] starts inside the literal
    [a]. *)
Fixpoint lit_ok (sep a y : string) : bool :=
  match a with
  | EmptyString => true
  | String _ a' => negb (compat sep (a +:+ y)) && lit_ok sep a' y
  end.

Fixpoint has_char (c : ascii) (s : string) : bool :=
  match s with
  | EmptyString => false
  | String d s' => Ascii.eqb c d || has_char c s'
  end.

(** White space stripped by [trim] and skipped by [parseInt]: TAB, LF, VT,
    FF, CR, SP and NBSP are the white space and line terminator code units
    below 256. *)
Definition is_ws (c : ascii) : bool :=
  match c with
  | " " | "160" | "009" | "010" | "011" | "012" | "013" => true
  | _ => false
  end%char.

Fixpoint trimStart (s : string) : string :=
  match s with
  | EmptyString => EmptyString
  | String c s' => if is_ws c then trimStart s' else s
  end.

Fixpoint trimEnd (s : string) : string :=
  match s with
  | EmptyString => EmptyString
  | String c s' =>
      match trimEnd s' with
      | EmptyString => if is_ws c then EmptyString else String c EmptyString
      | r => String c r
      end
  end.

(** [s.trim()] *)
Definition trim (s : string) : string := trimEnd (trimStart s).

(** The value of a decimal digit ([0] is code unit 48, [9] is 57). *)
Definition digit_val (c : ascii) : option Z :=
  let u := Z.of_N (N_of_ascii c) in
  if (48 <=? u)%Z && (u <=? 57)%Z then Some (u - 48)%Z else None.

(** The longest run of decimal digits at the head of [s], read in base 10
    on top of [acc]. *)
Fixpoint read_digits (s : string) (acc : Z) : Z :=
  match s with
  | EmptyString => acc
  | String c s' =>
      match digit_val c with
      | Some d => read_digits s' (10 * acc + d)
      | None => acc
      end
  end.

Definition unsigned_int (s : string) : option Z :=
  match s with
  | EmptyString => None
  | String c _ =>
      match digit_val c with
      | Some _ => Some (read_digits s 0)
      | None => None
      end
  end.

(** [parseInt(s, 10)]: leading white space is skipped, then an optional
    sign and the longest run of decimal digits are read; whatever follows
    is ignored.  [None] is [NaN].  The number is kept as the exact integer
    (the source only compares it with [0]). *)
Definition parseInt (s : string) : option Z :=
  match trimStart s with
  | String "-"%char r => option_map Z.opp (unsigned_int r)
  | String "+"%char r => unsigned_int r
  | r => unsigned_int r
  end.

(** ** [JSON.parse] *)

(** A decoded JavaScript string: its UTF-16 code units (an escape
    [\uXXXX] can denote any 16-bit unit). *)
Definition jsstr : Type := list N.

Definition units (s : string) : jsstr :=
  List.map N_of_ascii (String.list_ascii_of_string s).

(** JavaScript values as [JSON.parse] builds them.  A number is kept as the
    literal that denotes it and an object as its members in source order:
    the double and the property table of the JavaScript value are functions
    of these, so values equal here are equal there. *)
#[warnings="-register-all"]
Inductive JSON : Type :=
| JNull
| JBool (b : bool)
| JNumber (literal : string)
| JString (s : jsstr)
| JArray (items : list JSON)
| JObject (members : list (jsstr * JSON)).

Inductive token : Type :=
| TLBrack | TRBrack | TLBrace | TRBrace | TComma | TColon
| TNull | TTrue | TFalse
| TNum (literal : string)
| TStr (s : jsstr).

(** States of the number grammar: an optional minus sign; then a single
    zero, or a digit from 1 to 9 followed by any digits; then optionally a
    dot and at least one digit; then optionally [e] or [E], an optional
    sign and at least one digit. *)
Inductive numstate : Type :=
| NMinus | NZero | NInt | NDot | NFrac | NE | NESign | NExp.

Inductive lexmode : Type :=
| MNormal
| MStr (acc : jsstr)
| MEsc (acc : jsstr)
| MUni (acc : jsstr) (k : nat) (v : N)
| MNum (st : numstate) (lit : string)
| MLit (rest : string) (tok : token).

Definition is_digit (c : ascii) : bool :=
  match digit_val c with Some _ => true | None => false end.

Definition is_digit19 (c : ascii) : bool :=
  is_digit c && negb (Ascii.eqb c "0").

Definition num_next (st : numstate) (c : ascii) : option numstate :=
  match st with
  | NMinus => if Ascii.eqb c "0" then Some NZero
              else if is_digit c then Some NInt else None
  | NZero => if Ascii.eqb c "." then Some NDot
             else if Ascii.eqb c "e" || Ascii.eqb c "E" then Some NE else None
  | NInt => if is_digit c then Some NInt
            else if Ascii.eqb c "." then Some NDot
            else if Ascii.eqb c "e" || Ascii.eqb c "E" then Some NE else None
  | NDot => if is_digit c then Some NFrac else None
  | NFrac => if is_digit c then Some NFrac
             else if Ascii.eqb c "e" || Ascii.eqb c "E" then Some NE else None
  | NE => if Ascii.eqb c "+" || Ascii.eqb c "-" then Some NESign
          else if is_digit c then Some NExp else None
  | NESign => if is_digit c then Some NExp else None
  | NExp => if is_digit c then Some NExp else None
  end%char.

Definition num_accepting (st : numstate) : bool :=
  match st with
  | NZero | NInt | NFrac | NExp => true
  | NMinus | NDot | NE | NESign => false
  end.

(** The value of a hexadecimal digit: [0]-[9] are the code units 48-57,
    [A]-[F] are 65-70 and [a]-[f] are 97-102. *)
Definition hex_val (c : ascii) : option N :=
  let u := N_of_ascii c in
  if (48 <=? u)%N && (u <=? 57)%N then Some (u - 48)%N
  else if (65 <=? u)%N && (u <=? 70)%N then Some (u - 55)%N
  else if (97 <=? u)%N && (u <=? 102)%N then Some (u - 87)%N
  else None.

(** JSON white space: TAB, LF, CR and SP only. *)
Definition is_json_ws (c : ascii) : bool :=
  match c with
  | " " | "009" | "010" | "013" => true
  | _ => false
  end%char.

(** The lexer at the start of a token. *)
Definition lex_start (c : ascii) : option (list token * lexmode) :=
  if is_json_ws c then Some ([], MNormal)
  else if is_digit19 c then Some ([], MNum NInt (String c ""))
  else
    match c with
    | "[" => Some ([TLBrack], MNormal)
    | "]" => Some ([TRBrack], MNormal)
    | "{" => Some ([TLBrace], MNormal)
    | "}" => Some ([TRBrace], MNormal)
    | "," => Some ([TComma], MNormal)
    | ":" => Some ([TColon], MNormal)
    | "034" => Some ([], MStr [])
    | "-" => Some ([], MNum NMinus "-")
    | "0" => Some ([], MNum NZero "0")
    | "t" => Some ([], MLit "rue" TTrue)
    | "f" => Some ([], MLit "alse" TFalse)
    | "n" => Some ([], MLit "ull" TNull)
    | _ => None
    end%char.

(** One character of input: the tokens completed by it and the next mode,
    or [None] on a lexical error.  String accumulators are kept reversed. *)
Definition lex_step (m : lexmode) (c : ascii)
  : option (list token * lexmode) :=
  match m with
  | MNormal => lex_start c
  | MStr acc =>
      if Ascii.eqb c "034" then Some ([TStr (rev acc)], MNormal)
      else if Ascii.eqb c "\" then Some ([], MEsc acc)
      else if (N_of_ascii c <? 32)%N then None
      else Some ([], MStr (N_of_ascii c :: acc))
  | MEsc acc =>
      match c with
      | "034" => Some ([], MStr (34 :: acc))
      | "\" => Some ([], MStr (92 :: acc))
      | "/" => Some ([], MStr (47 :: acc))
      | "b" => Some ([], MStr (8 :: acc))
      | "f" => Some ([], MStr (12 :: acc))
      | "n" => Some ([], MStr (10 :: acc))
      | "r" => Some ([], MStr (13 :: acc))
      | "t" => Some ([], MStr (9 :: acc))
      | "u" => Some ([], MUni acc 0 0)
      | _ => None
      end%N
  | MUni acc k v =>
      match hex_val c with
      | None => None
      | Some h =>
          let v' := (16 * v + h)%N in
          if (k =? 3)%nat then Some ([], MStr (v' :: acc))
          else Some ([], MUni acc (S k) v')
      end
  | MNum st lit =>
      match num_next st c with
      | Some st' => Some ([], MNum st' (lit +:+ String c ""))
      | None =>
          if num_accepting st then
            match lex_start c with
            | Some (ts, m') => Some (TNum lit :: ts, m')
            | None => None
            end
          else None
      end
  | MLit rest tok =>
      match rest with
      | EmptyString => None
      | String c' rest' =>
          if Ascii.eqb c c' then
            match rest' with
            | EmptyString => Some ([tok], MNormal)
            | String _ _ => Some ([], MLit rest' tok)
            end
          else None
      end
  end%char.

(** End of input: a number in an accepting state is completed; inside any
    other token the text is cut short. *)
Definition lex_finish (m : lexmode) : option (list token) :=
  match m with
  | MNormal => Some []
  | MNum st lit => if num_accepting st then Some [TNum lit] else None
  | _ => None
  end.

Fixpoint lex_run (m : lexmode) (s : string) : option (list token * lexmode) :=
  match s with
  | EmptyString => Some ([], m)
  | String c s' =>
      match lex_step m c with
      | None => None
      | Some (ts, m') =>
          match lex_run m' s' with
          | None => None
          | Some (ts', m'') => Some (ts ++ ts', m'')
          end
      end
  end.

Definition tokenize (s : string) : option (list token) :=
  match lex_run MNormal s with
  | None => None
  | Some (ts, m) =>
      match lex_finish m with
      | None => None
      | Some ts' => Some (ts ++ ts')
      end
  end.

(** The parser is a pushdown automaton over the tokens.  A stack entry is
    an array or an object under construction (members reversed; an object
    also holds the key whose value is awaited). *)
Inductive container : Type :=
| CArr (acc : list JSON)
| CObj (acc : list (jsstr * JSON)) (key : option jsstr).

Inductive expect : Type :=
| EValue          (* a value *)
| EValueOrEnd     (* just after an opening bracket: a value or the end *)
| EKeyOrEnd       (* just after an opening brace: a key or the end *)
| EKey            (* after a comma in an object *)
| EColon
| ECommaOrEnd     (* after a value inside a container *)
| EDone (v : JSON).

Definition pstate : Type := (expect * list container)%type.

(** A value is complete: it is the result, or it goes into the innermost
    container. *)
Definition push_value (v : JSON) (stack : list container) : option pstate :=
  match stack with
  | [] => Some (EDone v, [])
  | CArr acc :: st => Some (ECommaOrEnd, CArr (v :: acc) :: st)
  | CObj acc (Some k) :: st => Some (ECommaOrEnd, CObj ((k, v) :: acc) None :: st)
  | CObj _ None :: _ => None
  end.

Definition open_value (t : token) (stack : list container) : option pstate :=
  match t with
  | TNull => push_value JNull stack
  | TTrue => push_value (JBool true) stack
  | TFalse => push_value (JBool false) stack
  | TNum l => push_value (JNumber l) stack
  | TStr s => push_value (JString s) stack
  | TLBrack => Some (EValueOrEnd, CArr [] :: stack)
  | TLBrace => Some (EKeyOrEnd, CObj [] None :: stack)
  | TRBrack | TRBrace | TComma | TColon => None
  end.

Definition set_key (k : jsstr) (stack : list container) : option pstate :=
  match stack with
  | CObj acc None :: st => Some (EColon, CObj acc (Some k) :: st)
  | _ => None
  end.

Definition close_array (stack : list container) : option pstate :=
  match stack with
  | CArr acc :: st => push_value (JArray (rev acc)) st
  | _ => None
  end.

Definition close_object (stack : list container) : option pstate :=
  match stack with
  | CObj acc None :: st => push_value (JObject (rev acc)) st
  | _ => None
  end.

Definition parse_step (st : pstate) (t : token) : option pstate :=
  let (e, stack) := st in
  match e with
  | EValue => open_value t stack
  | EValueOrEnd =>
      match t with
      | TRBrack => close_array stack
      | _ => open_value t stack
      end
  | EKeyOrEnd =>
      match t with
      | TStr k => set_key k stack
      | TRBrace => close_object stack
      | _ => None
      end
  | EKey =>
      match t with
      | TStr k => set_key k stack
      | _ => None
      end
  | EColon =>
      match t with
      | TColon => Some (EValue, stack)
      | _ => None
      end
  | ECommaOrEnd =>
      match t, stack with
      | TComma, CArr _ :: _ => Some (EValue, stack)
      | TComma, CObj _ None :: _ => Some (EKey, stack)
      | TRBrack, _ => close_array stack
      | TRBrace, _ => close_object stack
      | _, _ => None
      end
  | EDone _ => None
  end.

Fixpoint parse_run (st : pstate) (ts : list token) : option pstate :=
  match ts with
  | [] => Some st
  | t :: ts' =>
      match parse_step st t with
      | None => None
      | Some st' => parse_run st' ts'
      end
  end.

(** The parser state inside one more enclosing array: the same state on
    top of an array under construction, which receives the value once it
    is complete. *)
Definition under_array (st : pstate) : pstate :=
  match st with
  | (EDone v, _) => (ECommaOrEnd, [CArr [v]])
  | (e, stack) => (e, stack ++ [CArr []])
  end.

(** The same inside an array that already holds the values [acc] (the
    last one first). *)
Definition within_array (acc : list JSON) (st : pstate) : pstate :=
  match st with
  | (EDone v, _) => (ECommaOrEnd, [CArr (v :: acc)])
  | (e, stack) => (e, stack ++ [CArr acc])
  end.

(** The outermost container under construction is an array, or the
    result is one. *)
Definition bottom_array (st : pstate) : Prop :=
  match st with
  | (EDone v, _) =>
      match v with JArray _ => True | _ => False end
  | (_, stack) => exists stack' acc, stack = stack' ++ [CArr acc]
  end.

(** A literal name under way never expects a comma. *)
Definition no_comma_ahead (m : lexmode) : Prop :=
  match m with
  | MLit rest _ =>
      List.In rest ["rue"; "ue"; "e"; "alse"; "lse"; "se"; "ull"; "ll"; "l"]
  | _ => True
  end.

(** The tokens of several texts with a comma between each two. *)
Fixpoint sep_tokens (tss : list (list token)) : list token :=
  match tss with
  | [] => []
  | [ts] => ts
  | ts :: tss' => ts ++ TComma :: sep_tokens tss'
  end.

(** [JSON.parse(text)]: [None] when it throws [SyntaxError]. *)
Definition JSON_parse (text : string) : option JSON :=
  match tokenize text with
  | None => None
  | Some ts =>
      match parse_run (EValue, []) ts with
      | Some (EDone v, []) => Some v
      | _ => None
      end
  end.

(** ** Exceptions and promises *)

Inductive JSError : Type :=
| TypeError
| OtherError (msg : string).

(** The completion of a synchronous computation. *)
Inductive Completion (A : Type) : Type :=
| Return (a : A)
| Throw (e : JSError).
Arguments Return {A} a.
Arguments Throw {A} e.

(** The state a promise settles in. *)
Inductive Settled (A : Type) : Type :=
| Resolved (a : A)
| Rejected (e : JSError).
Arguments Resolved {A} a.
Arguments Rejected {A} e.

Definition bindC {A B} (c : Completion A) (k : A -> Completion B)
  : Completion B :=
  match c with
  | Return a => k a
  | Throw e => Throw e
  end.

(** [l.map(f)] with a callback that may throw: the first throw leaves the
    loop. *)
Fixpoint mapC {A B} (f : A -> Completion B) (l : list A)
  : Completion (list B) :=
  match l with
  | [] => Return []
  | a :: l' => bindC (f a) (fun b => bindC (mapC f l') (fun bs => Return (b :: bs)))
  end.

(** A callback of [then] that throws rejects the derived promise. *)
Definition settle {A} (c : Completion A) : Settled A :=
  match c with
  | Return a => Resolved a
  | Throw e => Rejected e
  end.

(** [l[i].m(...)]: the element, or [TypeError] when [l[i]] is [undefined]. *)
Definition item (l : list string) (i : nat) : Completion string :=
  match l !! i with
  | Some x => Return x
  | None => Throw TypeError
  end.

(** ** bluebird's [map(items, mapper, {concurrency})]

    A state of one call of [map]: the indices whose mapper has not been
    called yet, the indices whose mapper promise is pending, the values of
    the promises that resolved, and the first rejection if there was one. *)
Record MapState (B : Type) : Type := {
  pending : list nat;
  inflight : list nat;
  slots : list (option B);
  rejection : option JSError
}.
Arguments pending {B} _.
Arguments inflight {B} _.
Arguments slots {B} _.
Arguments rejection {B} _.

Definition without (i : nat) (l : list nat) : list nat :=
  filter (fun j => j <> i) l.

Section BluebirdMap.

Context {A B : Type}.
(** The state the promise returned by the mapper settles in. *)
Variable mapper : A -> Settled B.
Variable items : list A.
Variable concurrency : nat.

Definition map_init : MapState B :=
  {| pending := seq 0 (length items);
     inflight := [];
     slots := replicate (length items) None;
     rejection := None |}.

(** The mapper is called on a waiting item only while fewer than
    [concurrency] of its promises are pending, and not after a rejection;
    which waiting item is taken, and which pending promise settles next,
    is left open. *)
Inductive map_step : MapState B -> MapState B -> Prop :=
| map_call st i :
    i ∈ pending st ->
    length (inflight st) < concurrency ->
    rejection st = None ->
    map_step st {| pending := without i (pending st);
                   inflight := i :: inflight st;
                   slots := slots st;
                   rejection := None |}
| map_resolved st i a b :
    i ∈ inflight st ->
    items !! i = Some a ->
    mapper a = Resolved b ->
    map_step st {| pending := pending st;
                   inflight := without i (inflight st);
                   slots := <[i := Some b]> (slots st);
                   rejection := rejection st |}
| map_rejected st i a e :
    i ∈ inflight st ->
    items !! i = Some a ->
    mapper a = Rejected e ->
    map_step st {| pending := pending st;
                   inflight := without i (inflight st);
                   slots := slots st;
                   rejection := match rejection st with
                                | Some e0 => Some e0
                                | None => Some e
                                end |}.

Definition map_reachable (st : MapState B) : Prop := rtc map_step map_init st.

(** The promise returned by [map] has settled: every mapper promise
    resolved, or one of them rejected. *)
Definition map_result (st : MapState B) : option (Settled (list B)) :=
  match rejection st with
  | Some e => Some (Rejected e)
  | None =>
      match pending st, inflight st with
      | [], [] => Some (Resolved (omap id (slots st)))
      | _, _ => None
      end
  end.

(** What holds of every state of a call whose mapper promises all
    resolve: nothing was rejected, every index that waits or is pending
    is an index of [items], and every item waits, is pending, or has its
    slot filled with the value its mapper promise resolved with. *)
Definition map_inv (st : MapState B) : Prop :=
  rejection st = None
  /\ length (slots st) = length items
  /\ (forall i, i ∈ pending st \/ i ∈ inflight st -> i < length items)
  /\ (forall i a, items !! i = Some a ->
         i ∈ pending st \/ i ∈ inflight st
         \/ exists b, mapper a = Resolved b /\ slots st !! i = Some (Some b)).


(** The schedule without overlap: each mapper promise settles before the
    next mapper call. *)
Fixpoint map_in_order_from (l : list A) : Settled (list B) :=
  match l with
  | [] => Resolved []
  | a :: l' =>
      match mapper a with
      | Rejected e => Rejected e
      | Resolved b =>
          match map_in_order_from l' with
          | Rejected e => Rejected e
          | Resolved bs => Resolved (b :: bs)
          end
      end
  end.

Definition map_in_order : Settled (list B) := map_in_order_from items.

End BluebirdMap.

(** ** src/server-info.js *)

(** [code === 0] *)
Definition is_zero (code : option Z) : bool :=
  match code with
  | Some 0%Z => true
  | _ => false
  end.

Definition instanceof_Array (v : JSON) : bool :=
  match v with
  | JArray _ => true
  | _ => false
  end.

Definition parseJSONArray (stdout : string) (code : option Z) : JSON :=
  if is_zero code then
    let output := join "," (split nl stdout) in
    let output := "[" +:+ output +:+ "]" in
    match JSON_parse output with
    | Some result =>
        if negb (instanceof_Array result) then JArray [result] else result
    | None => JNull
    end
  else JNull.

Record Collector : Type := {
  command : string;
  parser : string -> option Z -> JSON
}.

Definition swarm_parser (stdout : string) (code : option Z) : JSON :=
  if is_zero code then
    match JSON_parse stdout with
    | Some v => v
    | None => JNull
    end
  else JNull.

Definition swarmToken_parser (stdout : string) (code : option Z) : JSON :=
  if is_zero code && negb (occurs "Error response" stdout)
  then JString (units (trim stdout))
  else JNull.

(** The registry, in the order [Object.keys] enumerates it. *)
Definition _collectors : list (string * Collector) :=
  [ ("swarm",
      {| command := "docker info --format '{{json .Swarm}}'";
         parser := swarm_parser |});
    ("swarmNodes",
      {| command := "docker node inspect $(docker node ls -q) --format '{{json .}}'";
         parser := parseJSONArray |});
    ("swarmToken",
      {| command := "docker swarm join-token worker -q";
         parser := swarmToken_parser |});
    ("swarmServices",
      {| command := "docker service ls --format '{{json .}}'";
         parser := parseJSONArray |});
    ("images",
      {| command := "docker images --format '{{json .}}'";
         parser := parseJSONArray |}) ].

Definition prefix : string := "<============mup-var-start========".
Definition suffix : string := "================mup-var-stop=====>".
Definition codeSeperator : string := "mup-var-code=======".

Definition generateVarCommand (name command : string) : string :=
  nl +:+ "  echo " +:+ dquote +:+ prefix +:+ name +:+ suffix +:+ dquote +:+ nl
  +:+ "  " +:+ command +:+ " 2>&1" +:+ nl
  +:+ "  echo " +:+ dquote +:+ codeSeperator +:+ dquote +:+ nl
  +:+ "  echo $?" +:+ nl
  +:+ "  ".

Definition generateScript : string :=
  fold_left
    (fun script kc => script +:+ generateVarCommand (fst kc) (command (snd kc)))
    _collectors "".

Record ProbeFrame : Type := {
  name : string;
  output : string;
  code : option Z          (* [None] is [NaN] *)
}.

(** The callback of [collectors.map] in [seperateCollectors]. *)
Definition decodeCollector (collectorOutput : string) : Completion ProbeFrame :=
  bindC (item (split suffix collectorOutput) 0) (fun name =>
  bindC (item (split suffix collectorOutput) 1) (fun afterName =>
  bindC (item (split codeSeperator afterName) 0) (fun commandOutput =>
  bindC (item (split codeSeperator collectorOutput) 1) (fun afterCode =>
  Return {| name := trim name;
            output := trim commandOutput;
            code := parseInt (trim afterCode) |})))).

Definition seperateCollectors (output : string) : Completion (list ProbeFrame) :=
  let collectors := split prefix output in
  let collectors := tail collectors in          (* [collectors.shift()] *)
  mapC decodeCollector collectors.

(** [_collectors[name]]: the own property of that name.  For every other
    name the lookup yields [undefined] or an inherited property of
    [Object.prototype], neither of which has a callable [parser]. *)
Fixpoint lookup_collector (name : string) (reg : list (string * Collector))
  : option Collector :=
  match reg with
  | [] => None
  | (k, c) :: reg' => if String.eqb k name then Some c else lookup_collector name reg'
  end.

Definition parseCollectorOutput (name output : string) (code : option Z)
  : Completion JSON :=
  match lookup_collector name _collectors with
  | Some collector => Return (parser collector output code)
  | None => Throw TypeError
  end.

(** The object built by [createHostResult]: the [_host] property and the
    properties assigned from the frames.  No frame can assign [_host]:
    [_host] is not a key of the registry, so [parseCollectorOutput] throws
    before the assignment. *)
Record HostResult : Type := {
  _host : string;
  probes : gmap string JSON
}.

(** The callback of [collectorData.forEach]:
    [result[data.name] = parseCollectorOutput(data.name, data.output, data.code)]. *)
Definition assignProbe (acc : Completion HostResult) (data : ProbeFrame)
  : Completion HostResult :=
  bindC acc (fun result =>
  bindC (parseCollectorOutput (name data) (output data) (code data)) (fun v =>
  Return {| _host := _host result;
            probes := <[name data := v]> (probes result) |})).

Definition createHostResult (collectorData : list ProbeFrame) (host : string)
  : Completion HostResult :=
  fold_left assignProbe collectorData (Return {| _host := host; probes := ∅ |}).

(** [name] is a key of the registry. *)
Definition registered (name : string) : bool :=
  match lookup_collector name _collectors with
  | Some _ => true
  | None => false
  end.

Record Server : Type := { host : string }.

(** What [runSSHCommand] resolves with. *)
Record SSHResult : Type := {
  ssh_output : string;
  ssh_code : Z
}.

(** The result of [getServerInfo]: the lines written by [console.log] and
    the state the returned promise settles in ([None] is [undefined]). *)
Record Probed : Type := {
  logged : list (JSError * Server);
  settled : Settled (option HostResult)
}.

(** The callback of [serverResults.forEach] in [serverInfo]:
    [result[serverResult._host] = serverResult].  Reading [_host] of
    [undefined] throws [TypeError]. *)
Definition addServerResult (acc : Completion (gmap string HostResult))
    (serverResult : option HostResult) : Completion (gmap string HostResult) :=
  bindC acc (fun result =>
  match serverResult with
  | None => Throw TypeError
  | Some hr => Return (<[_host hr := hr]> result)
  end).

(** The callback of [then] in [serverInfo]. *)
Definition collectResults (serverResults : list (option HostResult))
  : Completion (gmap string HostResult) :=
  fold_left addServerResult serverResults (Return ∅).

Section ServerInfo.

(** [runSSHCommand] of [./utils]: the state the promise it returns
    settles in, for a server and a script. *)
Variable runSSHCommand : Server -> string -> Settled SSHResult.

(** The type of the [vars] argument, which the functions pass along and
    never read. *)
Variable Vars : Type.

Definition getServerInfo (vars : Vars) (server : Server) : Probed :=
  let command := generateScript in
  match runSSHCommand server command with
  | Resolved result =>
      match bindC (seperateCollectors (ssh_output result))
              (fun collectorData => createHostResult collectorData (host server))
      with
      | Return hostResult =>
          {| logged := []; settled := Resolved (Some hostResult) |}
      | Throw err =>
          {| logged := [(err, server)]; settled := Resolved None |}
      end
  | Rejected err =>
      {| logged := [(err, server)]; settled := Resolved None |}
  end.

(** The call [map(servers, server => getServerInfo(vars, server),
    { concurrency: 2 })] of [serverInfo]: the states it goes through. *)
Definition serverInfo_map (vars : Vars) (servers : list Server)
  : MapState (option HostResult) -> Prop :=
  map_reachable (fun server => settled (getServerInfo vars server)) servers 2.

(** The default export.  [map] resolves with the values of the mapper's
    promises in the order of [servers]: [map_in_order] is the schedule
    that runs the hosts one after the other, and [serverInfo_any_schedule]
    below shows that every schedule of [map_step] settles the same way. *)
Definition serverInfo (vars : Vars) (servers : list Server)
  : Settled (gmap string HostResult) :=
  match map_in_order (fun server => settled (getServerInfo vars server)) servers with
  | Resolved serverResults => settle (collectResults serverResults)
  | Rejected e => Rejected e
  end.

End ServerInfo.

Arguments getServerInfo _ {Vars} _ _.
Arguments serverInfo_map _ {Vars} _ _ _.
Arguments serverInfo _ {Vars} _ _.

(** ** The script on the remote shell

    The fragment of the POSIX shell that the text built by
    [generateVarCommand] uses: one command per line, [echo] of a
    double-quoted word without expansions, [echo $?], and an external
    command line with [2>&1].  [$?] is the exit status of the command
    executed last. *)

Record CmdResult : Type := {
  cmd_out : string;        (* what the command writes, both streams merged *)
  cmd_status : nat
}.

Record ShState : Type := {
  sh_out : list string;    (* the writes so far, in order *)
  sh_status : nat
}.

Definition showNat (n : nat) : string :=
  NilEmpty.string_of_uint (Nat.to_uint n).

Definition strip_prefix (p s : string) : option string :=
  if starts p s then Some (sdrop (slen p) s) else None.

Fixpoint strip_suffix (p s : string) : option string :=
  if String.eqb s p then Some EmptyString
  else
    match s with
    | EmptyString => None
    | String c s' => option_map (String c) (strip_suffix p s')
    end.

(** A double-quoted word in which the shell expands nothing. *)
Fixpoint plain_word (s : string) : bool :=
  match s with
  | EmptyString => true
  | String c s' =>
      negb (Ascii.eqb c "$" || Ascii.eqb c "`" || Ascii.eqb c "\"
            || Ascii.eqb c "034")%char
      && plain_word s'
  end.

Fixpoint concat_writes (l : list string) : string :=
  match l with
  | [] => ""
  | x :: l' => x +:+ concat_writes l'
  end.

Section Shell.

(** What an external command line writes and exits with. *)
Variable exec : string -> CmdResult.

Definition runLine (st : ShState) (line : string) : option ShState :=
  let l := trim line in
  if String.eqb l "" then Some st
  else if String.eqb l "echo $?" then
    Some {| sh_out := sh_out st ++ [showNat (sh_status st) +:+ nl];
            sh_status := 0 |}
  else
    match strip_prefix ("echo " +:+ dquote) l with
    | Some r =>
        match strip_suffix dquote r with
        | Some word =>
            if plain_word word
            then Some {| sh_out := sh_out st ++ [word +:+ nl]; sh_status := 0 |}
            else None
        | None => None
        end
    | None =>
        match strip_suffix " 2>&1" l with
        | Some cmd =>
            Some {| sh_out := sh_out st ++ [cmd_out (exec cmd)];
                    sh_status := cmd_status (exec cmd) |}
        | None => None
        end
    end.

(** The combined output of a script; [None] when a line is outside the
    fragment. *)
Definition runScript (script : string) : option string :=
  option_map (fun st => concat_writes (sh_out st))
    (fold_left
       (fun st line => match st with Some s => runLine s line | None => None end)
       (split nl script)
       (Some {| sh_out := []; sh_status := 0 |})).

End Shell.

(** The text one probe leaves in the combined output: the line of the
    first [echo], what the command wrote, the line of the second [echo]
    and the line of [echo $?]. *)
Definition wireChunk (name out : string) (status : nat) : string :=
  name +:+ suffix +:+ nl
  +:+ out
  +:+ codeSeperator +:+ nl
  +:+ showNat status +:+ nl.

Definition wireFrame (name out : string) (status : nat) : string :=
  prefix +:+ wireChunk name out status.

Fixpoint wire (frames : list (string * string * nat)) : string :=
  match frames with
  | [] => ""
  | (n, o, c) :: frames' => wireFrame n o c +:+ wire frames'
  end.

(** ** The command/hook dispatch engine

    [src/plugin-api.js], [src/commands.js] and [src/hooks.js] are not among
    the sources at hand: only the unit test
    [src/__tests__/plugin-api.unit.js] is, which registers
    [commands['test.logs']], [hooks['pre.test.logs']] and
    [hooks['post.test.logs']] and calls [api.runCommand]. *)

Inductive Call : Type :=
| CallHook (key : string) (index : nat)
| CallHandler (name : string).

Section Dispatch.

(** The state the hooks and the handlers read and write (in the unit test:
    the three flags), and what a handler returns. *)
Variables World Result : Type.

Record Hook : Type := { method : World -> World }.
Record Command : Type := { handler : World -> Completion (World * Result) }.

(** One call of [runCommand]: the hooks and handlers it invoked, in the
    order of invocation, and the state its promise settles in. *)
Record Dispatched : Type := {
  calls : list Call;
  outcome : Settled (World * Result)
}.

Definition runHooks (hs : list Hook) (w : World) : World :=
  fold_left (fun w h => method h w) hs w.

Definition hookCalls (key : string) (hs : list Hook) : list Call :=
  imap (fun i _ => CallHook key i) hs.

(** Modelled from the spec: [runCommand] of [src/plugin-api.js], which is
    not under src/.  Section 4.5: it fails at once, before any hook or
    handler, when the name is absent or empty or no command is registered
    under it; otherwise it invokes the hooks of [hooks["pre." + name]] in
    registration order, then the handler, then the hooks of
    [hooks["post." + name]] in registration order, and returns the
    handler's result.  A failure of the handler is propagated (section 7);
    the post-hooks are then skipped, the choice section 9 names as the
    safe one. *)
Definition runCommand (commands : gmap string Command)
    (hooks : gmap string (list Hook)) (name : option string) (w : World)
  : Dispatched :=
  match name with
  | None =>
      {| calls := []; outcome := Rejected (OtherError "Command name is required") |}
  | Some n =>
      if String.eqb n "" then
        {| calls := []; outcome := Rejected (OtherError "Command name is required") |}
      else
        match commands !! n with
        | None =>
            {| calls := []; outcome := Rejected (OtherError ("Unknown command name: " +:+ n)) |}
        | Some cmd =>
            let pre := default [] (hooks !! ("pre." +:+ n)) in
            let post := default [] (hooks !! ("post." +:+ n)) in
            let before := hookCalls ("pre." +:+ n) pre ++ [CallHandler n] in
            match handler cmd (runHooks pre w) with
            | Throw e => {| calls := before; outcome := Rejected e |}
            | Return (w', r) =>
                {| calls := before ++ hookCalls ("post." +:+ n) post;
                   outcome := Resolved (runHooks post w', r) |}
            end
        end
  end.

End Dispatch.

Arguments method {World} _ _.
Arguments handler {World Result} _ _.
Arguments calls {World Result} _.
Arguments outcome {World Result} _.
Arguments runHooks {World} _ _.
Arguments hookCalls {World} _ _.
Arguments runCommand {World Result} _ _ _ _.

Definition is_handler_call (c : Call) : bool :=
  match c with
  | CallHandler _ => true
  | CallHook _ _ => false
  end.

(** The fixture of the unit test: the flags [commandCalled],
    [preHookCalled] and [postHookCalled] and the three callbacks that set
    them. *)
Record Flags : Type := {
  commandCalled : bool;
  preHookCalled : bool;
  postHookCalled : bool
}.

Definition test_hooks : gmap string (list (Hook Flags)) :=
  <["pre.test.logs" :=
      [ {| method := fun w =>
             {| commandCalled := commandCalled w;
                preHookCalled := true;
                postHookCalled := postHookCalled w |} |} ]]>
  (<["post.test.logs" :=
      [ {| method := fun w =>
             {| commandCalled := commandCalled w;
                preHookCalled := preHookCalled w;
                postHookCalled := true |} |} ]]> ∅).

Definition test_handler : Command Flags unit :=
  {| handler := fun w =>
       Return ({| commandCalled := true;
                  preHookCalled := preHookCalled w;
                  postHookCalled := postHookCalled w |}, tt) |}.

Definition test_commands : gmap string (Command Flags unit) :=
  <["test.logs" := test_handler]> ∅.

Definition flags0 : Flags :=
  {| commandCalled := false; preHookCalled := false; postHookCalled := false |}.

(** A raw output that contains none of the sentinel literals. *)
Definition out_ok (o : string) : bool :=
  negb (occurs prefix o) && negb (occurs suffix o)
  && negb (occurs codeSeperator o).

(** A probe name that is written back unchanged: it is trimmed, holds no
    [<] and no stop sentinel, and no code separator starts inside it when
    the stop sentinel follows. *)
Definition name_ok (n : string) : bool :=
  negb (has_char "<" n) && negb (occurs suffix n)
  && lit_ok codeSeperator n suffix && String.eqb (trim n) n.

Definition frame_ok (f : string * string * nat) : bool :=
  name_ok (fst (fst f)) && out_ok (snd (fst f)).

Definition chunkOf (f : string * string * nat) : string :=
  wireChunk (fst (fst f)) (snd (fst f)) (snd f).

(** The frame [seperateCollectors] is to give back for a probe. *)
Definition decoded (f : string * string * nat) : ProbeFrame :=
  {| name := fst (fst f);
     output := trim (snd (fst f));
     code := Some (Z.of_nat (snd f)) |}.

(** The probes as the remote shell runs them: name, raw output and exit
    status of each registered command. *)
Definition executed (exec : string -> CmdResult) : list (string * string * nat) :=
  List.map
    (fun kc => (fst kc, cmd_out (exec (command (snd kc))),
                cmd_status (exec (command (snd kc)))))
    _collectors.

(** The same probes with the status that [echo $?] writes: the status of
    the [echo] before it. *)
Definition written (exec : string -> CmdResult) : list (string * string * nat) :=
  List.map (fun kc => (fst kc, cmd_out (exec (command (snd kc))), 0)) _collectors.

(** A frame with the raw output, as the round trip would give it back. *)
Definition original (f : string * string * nat) : ProbeFrame :=
  {| name := fst (fst f);
     output := snd (fst f);
     code := Some (Z.of_nat (snd f)) |}.

(** Every command writes the line [x] and succeeds. *)
Definition exec_line (cmd : string) : CmdResult :=
  {| cmd_out := "x" +:+ nl; cmd_status := 0 |}.

(** Every command writes the line [x] and exits with status 1. *)
Definition exec_fail (cmd : string) : CmdResult :=
  {| cmd_out := "x" +:+ nl; cmd_status := 1 |}.

(** Two hosts; the connection to the first one is refused, the second one
    runs the script (every probe writes the line [x]). *)
Definition web1 : Server := {| host := "web1" |}.
Definition web2 : Server := {| host := "web2" |}.

Definition one_host_down (server : Server) (script : string) : Settled SSHResult :=
  if String.eqb (host server) "web1"
  then Rejected (OtherError "connect ECONNREFUSED")
  else
    match runScript exec_line script with
    | Some o => Resolved {| ssh_output := o; ssh_code := 0 |}
    | None => Rejected (OtherError "sh: syntax error")
    end.

(** Five hosts, and the state of [map] once the mapper has been called on
    the first two of them. *)
Definition five_hosts : list Server :=
  [ {| host := "web1" |}; {| host := "web2" |}; {| host := "web3" |};
    {| host := "web4" |}; {| host := "web5" |} ].

Definition two_called : MapState (option HostResult) :=
  {| pending := [2; 3; 4];
     inflight := [1; 0];
     slots := [None; None; None; None; None];
     rejection := None |}.

(** The input of the test of the JSON-lines parser: two objects, one per
    line. *)
Definition two_lines : string :=
  "{" +:+ dquote +:+ "a" +:+ dquote +:+ ":1}" +:+ nl
  +:+ "{" +:+ dquote +:+ "b" +:+ dquote +:+ ":2}".

(** An object written over two lines. *)
Definition object_on_two_lines : string :=
  "{" +:+ nl +:+ dquote +:+ "a" +:+ dquote +:+ ":1}".

(** A chunk in which both the stop sentinel and the code separator occur. *)
Definition framed (chunk : string) : bool :=
  occurs suffix chunk && occurs codeSeperator chunk.

(** The chunks [seperateCollectors] maps over. *)
Definition chunks (output : string) : list string := tail (split prefix output).

(** A combined output whose first chunk is well formed and whose second
    chunk stops after the probe name. *)
Definition cut_short : string :=
  wireFrame "swarm" "{}" 0 +:+ prefix +:+ "images".

(** The same with the stop sentinel, and without the code separator. *)
Definition no_code : string :=
  wireFrame "swarm" "{}" 0 +:+ prefix +:+ "images" +:+ suffix +:+ nl +:+ "[]".

(** The same with the code separator, and no integer after it. *)
Definition no_integer : string :=
  wireFrame "swarm" "{}" 0
  +:+ prefix +:+ "images" +:+ suffix +:+ nl +:+ "[]" +:+ codeSeperator +:+ nl.

(** A transport that runs the script on the remote shell, where the
    external commands behave as [exec] says. *)
Definition ssh_runs (exec : string -> CmdResult) (server : Server) (script : string)
  : Settled SSHResult :=
  match runScript exec script with
  | Some o => Resolved {| ssh_output := o; ssh_code := 0 |}
  | None => Rejected (OtherError "sh: syntax error")
  end.

(** What the parser registered under the frame's name makes of the frame
    ([null] stands in when no parser is registered, in which case
    [parseCollectorOutput] throws before the value is used). *)
Definition parsed (f : ProbeFrame) : JSON :=
  match lookup_collector (name f) _collectors with
  | Some col => parser col (output f) (code f)
  | None => JNull
  end.

(** A transport whose answer stops in the middle of the second frame. *)
Definition garbled (server : Server) (script : string) : Settled SSHResult :=
  Resolved {| ssh_output := cut_short; ssh_code := 0 |}.




(* ===================================================================== *)
(** * Part II: properties                                                 *)
(* ===================================================================== *)

(** ** Strings *)

Lemma sapp_nil_r (s : string) : s +:+ "" = s.
Proof. induction s as [|c s IH]; simpl; [reflexivity | now rewrite IH]. Qed.

Lemma sapp_assoc (a b c : string) : (a +:+ b) +:+ c = a +:+ (b +:+ c).
Proof. induction a as [|x a IH]; simpl; [reflexivity | now rewrite IH]. Qed.

Lemma starts_refl_app (p r : string) : starts p (p +:+ r) = true.
Proof.
  induction p as [|c p IH]; simpl; [reflexivity |].
  now rewrite Ascii.eqb_refl, IH.
Qed.

Lemma starts_refl (p : string) : starts p p = true.
Proof. rewrite <- (sapp_nil_r p) at 2. apply starts_refl_app. Qed.

(** A match at the head of [a +:+ z] lies within [a] or runs over its end. *)
Lemma starts_app_cases (p a z : string) :
  starts p (a +:+ z) = true ->
  starts p a = true \/ exists t, p = a +:+ t /\ starts t z = true.
Proof.
  revert p. induction a as [|c a IH]; intros p H; simpl in *.
  - right. exists p. split; [reflexivity | exact H].
  - destruct p as [|d p]; [now left |].
    simpl in H. apply andb_true_iff in H as [Hc Hp].
    apply Ascii.eqb_eq in Hc. subst d.
    destruct (IH p Hp) as [Hl | (t & -> & Ht)].
    + left. simpl. now rewrite Ascii.eqb_refl.
    + right. exists t. split; [reflexivity | exact Ht].
Qed.

Lemma starts_app_compat (p z r : string) :
  starts p (z +:+ r) = true -> compat p z = true.
Proof.
  intros H. unfold compat.
  destruct (starts_app_cases _ _ _ H) as [Hl | (t & -> & _)].
  - now rewrite Hl.
  - rewrite (starts_refl_app z t). apply orb_true_r.
Qed.

Lemma occurs_cons_false (p : string) (c : ascii) (s : string) :
  occurs p (String c s) = false ->
  starts p (String c s) = false /\ occurs p s = false.
Proof.
  intros H. change (starts p (String c s) || occurs p s = false) in H.
  now apply orb_false_iff in H.
Qed.

(** ** [split] *)

Lemma split_unfold (c : ascii) (sep s : string) :
  split (String c sep) s =
  fst (split_from (String c sep) 0 s) :: snd (split_from (String c sep) 0 s).
Proof. reflexivity. Qed.

Lemma split_from_skip (sep x s : string) :
  split_from sep (slen x) (x +:+ s) = split_from sep 0 s.
Proof. induction x as [|c x IH]; simpl; [reflexivity | exact IH]. Qed.

(** At an occurrence of the separator a piece ends. *)
Lemma split_from_sep (c : ascii) (sep r : string) :
  split_from (String c sep) 0 (String c sep +:+ r) =
  ("", split (String c sep) r).
Proof.
  rewrite split_unfold.
  change (String c sep +:+ r) with (String c (sep +:+ r)).
  cbn [split_from].
  change (String c (sep +:+ r)) with (String c sep +:+ r).
  rewrite starts_refl_app.
  replace (slen (String c sep) - 1) with (slen sep) by (simpl; lia).
  now rewrite split_from_skip.
Qed.

Lemma split_from_first (c : ascii) (sep a r : string) :
  nomatch (String c sep) a (String c sep +:+ r) ->
  split_from (String c sep) 0 (a +:+ String c sep +:+ r) =
  (a, split (String c sep) r).
Proof.
  induction a as [|x a IH]; intros H.
  - apply split_from_sep.
  - destruct H as [H1 H2].
    change (String x a +:+ String c sep +:+ r)
      with (String x (a +:+ String c sep +:+ r)) in *.
    cbn [split_from]. rewrite H1, (IH H2). reflexivity.
Qed.

(** [split] cuts [a +:+ sep +:+ r] after [a] when no occurrence of [sep]
    starts inside [a]. *)
Lemma split_first (sep a r : string) :
  sep <> "" ->
  nomatch sep a (sep +:+ r) ->
  split sep (a +:+ sep +:+ r) = a :: split sep r.
Proof.
  destruct sep as [|c sep]; [congruence |]. intros _ H.
  rewrite split_unfold, (split_from_first _ _ _ _ H). reflexivity.
Qed.

Lemma split_from_none (sep a : string) :
  nomatch sep a "" -> split_from sep 0 a = (a, []).
Proof.
  induction a as [|x a IH]; intros H; [reflexivity |].
  destruct H as [H1 H2]. rewrite sapp_nil_r in H1.
  cbn [split_from]. rewrite H1, (IH H2). reflexivity.
Qed.

Lemma split_none (sep a : string) :
  sep <> "" -> nomatch sep a "" -> split sep a = [a].
Proof.
  destruct sep as [|c sep]; [congruence |]. intros _ H.
  rewrite split_unfold, (split_from_none _ _ H). reflexivity.
Qed.

(** ** Where no occurrence starts *)

Lemma nomatch_app (sep a b r : string) :
  nomatch sep a (b +:+ r) -> nomatch sep b r -> nomatch sep (a +:+ b) r.
Proof.
  induction a as [|x a IH]; intros Ha Hb; [exact Hb |].
  destruct Ha as [H1 H2]. split.
  - change (String x a +:+ b) with (String x (a +:+ b)).
    change (String x (a +:+ b) +:+ r) with (String x ((a +:+ b) +:+ r)).
    rewrite sapp_assoc. exact H1.
  - now apply IH.
Qed.

(** A literal piece, checked position by position. *)
Lemma nomatch_lit (sep a y r : string) :
  lit_ok sep a y = true -> nomatch sep a (y +:+ r).
Proof.
  induction a as [|x a IH]; intros H; [exact I |].
  cbn [lit_ok] in H. apply andb_true_iff in H as [H1 H2].
  split; [| now apply IH].
  destruct (starts sep (String x a +:+ y +:+ r)) eqn:E; [| reflexivity].
  rewrite <- sapp_assoc in E. apply starts_app_compat in E.
  rewrite E in H1. discriminate.
Qed.

Lemma clash_from_end (t y a : string) :
  clash_from (a +:+ t) y = false -> t <> "" -> compat t y = false.
Proof.
  induction a as [|x a IH]; intros H Ht.
  - destruct t as [|c t]; [congruence |].
    cbn [clash_from] in H. now apply orb_false_iff in H.
  - change (String x a +:+ t) with (String x (a +:+ t)) in H.
    cbn [clash_from] in H. apply orb_false_iff in H as [_ H]. now apply IH.
Qed.

(** An arbitrary piece in which [sep] does not occur, followed by a literal
    that no end of [sep] can run into. *)
Lemma nomatch_free (sep a y r : string) :
  occurs sep a = false -> clash sep y = false -> nomatch sep a (y +:+ r).
Proof.
  intros Ha Hc. induction a as [|x a IH]; [exact I |].
  apply occurs_cons_false in Ha as [Hs Ho].
  split; [| now apply IH].
  destruct (starts sep (String x a +:+ y +:+ r)) eqn:E; [| reflexivity].
  apply starts_app_cases in E as [E | (t & -> & Et)]; [congruence |].
  assert (Ht : t <> "").
  { intros ->. rewrite sapp_nil_r, starts_refl in Hs. discriminate. }
  apply starts_app_compat in Et.
  change (clash_from (a +:+ t) y = false) in Hc.
  rewrite (clash_from_end _ _ _ Hc Ht) in Et. discriminate.
Qed.

(** A piece without the first character of [sep]. *)
Lemma nomatch_char (c : ascii) (sep a r : string) :
  has_char c a = false -> nomatch (String c sep) a r.
Proof.
  induction a as [|x a IH]; intros H; [exact I |].
  cbn [has_char] in H. apply orb_false_iff in H as [H1 H2].
  split; [| now apply IH].
  simpl. now rewrite H1.
Qed.

(** ** Decimal numerals, [trim] and [parseInt] *)

Lemma read_digits_uint (d : Decimal.uint) (acc : nat) :
  read_digits (NilEmpty.string_of_uint d) (Z.of_nat acc) =
  Z.of_nat (Nat.of_uint_acc d acc).
Proof.
  revert acc. induction d; intros acc; simpl; [reflexivity | ..];
    rewrite Nat.tail_mul_spec, <- IHd; f_equal; lia.
Qed.

Lemma to_uint_not_nil (n : nat) : Nat.to_uint n <> Decimal.Nil.
Proof.
  intros H. pose proof (Unsigned.of_to n) as E. rewrite H in E.
  cbn in E. subst n. discriminate.
Qed.

Lemma uint_digits (d : Decimal.uint) (c : ascii) :
  is_digit c = false -> has_char c (NilEmpty.string_of_uint d) = false.
Proof.
  intros Hc. induction d; simpl; [reflexivity | ..]; rewrite IHd, orb_false_r;
    destruct (Ascii.eqb_spec c "0"), (Ascii.eqb_spec c "1"),
      (Ascii.eqb_spec c "2"), (Ascii.eqb_spec c "3"), (Ascii.eqb_spec c "4"),
      (Ascii.eqb_spec c "5"), (Ascii.eqb_spec c "6"), (Ascii.eqb_spec c "7"),
      (Ascii.eqb_spec c "8"), (Ascii.eqb_spec c "9");
    subst; try discriminate; try reflexivity;
    apply Ascii.eqb_neq; assumption.
Qed.

Lemma showNat_digits (n : nat) (c : ascii) :
  is_digit c = false -> has_char c (showNat n) = false.
Proof. apply uint_digits. Qed.

Lemma showNat_head (n : nat) :
  exists c s, showNat n = String c s /\ is_digit c = true.
Proof.
  unfold showNat. pose proof (to_uint_not_nil n) as H.
  destruct (Nat.to_uint n); [congruence | ..]; simpl; eauto.
Qed.

Lemma is_digit_not_ws (c : ascii) : is_digit c = true -> is_ws c = false.
Proof.
  destruct c as [[] [] [] [] [] [] [] []]; simpl; intros H;
    first [reflexivity | discriminate].
Qed.

Lemma parseInt_showNat (n : nat) : parseInt (showNat n) = Some (Z.of_nat n).
Proof.
  destruct (showNat_head n) as (c & s & E & Hc).
  unfold parseInt. rewrite E. cbn [trimStart].
  rewrite (is_digit_not_ws _ Hc).
  assert (U : unsigned_int (String c s) = Some (Z.of_nat n)).
  { unfold unsigned_int. unfold is_digit in Hc.
    destruct (digit_val c) eqn:D; [| discriminate].
    rewrite <- E. unfold showNat.
    change 0%Z with (Z.of_nat 0). rewrite read_digits_uint.
    change (Nat.of_uint_acc (Nat.to_uint n) 0) with (Nat.of_uint (Nat.to_uint n)).
    now rewrite Unsigned.of_to. }
  destruct c as [[] [] [] [] [] [] [] []]; try discriminate Hc; exact U.
Qed.

(** A text without white space followed by a line break is trimmed to
    itself. *)
Lemma trimEnd_line (d : string) :
  has_char " " d = false -> has_char "009" d = false ->
  has_char "010" d = false -> has_char "011" d = false ->
  has_char "012" d = false -> has_char "013" d = false ->
  has_char "160" d = false ->
  trimEnd (d +:+ nl) = d.
Proof.
  induction d as [|c d IH]; intros H1 H2 H3 H4 H5 H6 H7; [reflexivity |].
  cbn [has_char] in *.
  apply orb_false_iff in H1 as [A1 H1], H2 as [A2 H2], H3 as [A3 H3],
    H4 as [A4 H4], H5 as [A5 H5], H6 as [A6 H6], H7 as [A7 H7].
  change (String c d +:+ nl) with (String c (d +:+ nl)).
  cbn [trimEnd]. rewrite (IH H1 H2 H3 H4 H5 H6 H7).
  destruct d; [| reflexivity].
  replace (is_ws c) with false; [reflexivity |].
  destruct c as [[] [] [] [] [] [] [] []]; try reflexivity;
    vm_compute in A1, A2, A3, A4, A5, A6, A7; discriminate.
Qed.

Lemma trim_code_line (n : nat) : trim (nl +:+ showNat n +:+ nl) = showNat n.
Proof.
  unfold trim. change (nl +:+ showNat n +:+ nl)
    with (String "010" (showNat n +:+ nl)).
  cbn [trimStart]. change (is_ws "010") with true. cbv iota.
  destruct (showNat_head n) as (c & s & E & Hc).
  rewrite E at 1. change (String c s +:+ nl) with (String c (s +:+ nl)).
  cbn [trimStart]. rewrite (is_digit_not_ws _ Hc).
  change (String c (s +:+ nl)) with (String c s +:+ nl). rewrite <- E.
  apply trimEnd_line; now apply showNat_digits.
Qed.

Lemma trim_after_nl (o : string) : trim (nl +:+ o) = trim o.
Proof. reflexivity. Qed.

(** ** Decoding well-formed frames *)

Lemma nomatch_app0 (sep a b : string) :
  nomatch sep a b -> nomatch sep b "" -> nomatch sep (a +:+ b) "".
Proof.
  intros Ha Hb. apply nomatch_app; [now rewrite sapp_nil_r | exact Hb].
Qed.

(** Cut a concatenation into its pieces, one goal per piece. *)
Ltac pieces :=
  repeat (apply nomatch_app; [rewrite ?sapp_assoc |]).

Ltac by_char := apply nomatch_char; vm_compute; reflexivity.
Ltac by_digits := apply nomatch_char; apply showNat_digits; reflexivity.
Ltac by_lit := apply nomatch_lit; vm_compute; reflexivity.
Ltac by_free H := apply nomatch_free; [exact H | vm_compute; reflexivity].

Section Chunk.

Variables (n o : string) (c : nat).
Hypothesis Hn : name_ok n = true.
Hypothesis Ho : out_ok o = true.

Lemma name_ok_inv :
  has_char "<" n = false /\ occurs suffix n = false
  /\ lit_ok codeSeperator n suffix = true /\ trim n = n.
Proof.
  unfold name_ok in Hn.
  apply andb_true_iff in Hn as [H Ht].
  apply andb_true_iff in H as [H Hl].
  apply andb_true_iff in H as [Hc Hs].
  apply negb_true_iff in Hc, Hs. apply String.eqb_eq in Ht. auto.
Qed.

Lemma out_ok_inv :
  occurs prefix o = false /\ occurs suffix o = false
  /\ occurs codeSeperator o = false.
Proof.
  unfold out_ok in Ho.
  apply andb_true_iff in Ho as [H Hc].
  apply andb_true_iff in H as [Hp Hs].
  apply negb_true_iff in Hp, Hs, Hc. auto.
Qed.

(** No start sentinel begins inside a chunk, whatever follows it. *)
Lemma chunk_no_prefix (r : string) : nomatch prefix (wireChunk n o c) r.
Proof.
  destruct name_ok_inv as (Hc & _), out_ok_inv as (Hp & _).
  unfold wireChunk. pieces.
  - apply nomatch_char. exact Hc.
  - by_char.
  - by_char.
  - by_free Hp.
  - by_char.
  - by_char.
  - by_digits.
  - by_char.
Qed.

Lemma chunk_split_suffix :
  split suffix (wireChunk n o c) =
  [n; nl +:+ o +:+ codeSeperator +:+ nl +:+ showNat c +:+ nl].
Proof.
  destruct name_ok_inv as (_ & Hs & _), out_ok_inv as (_ & Hos & _).
  unfold wireChunk. rewrite split_first.
  - f_equal. apply split_none; [discriminate |].
    repeat (apply nomatch_app0; [rewrite ?sapp_assoc |]).
    + by_char.
    + by_free Hos.
    + by_lit.
    + by_char.
    + by_digits.
    + by_char.
  - discriminate.
  - by_free Hs.
Qed.

Lemma chunk_split_output :
  split codeSeperator
    (nl +:+ o +:+ codeSeperator +:+ nl +:+ showNat c +:+ nl) =
  [nl +:+ o; nl +:+ showNat c +:+ nl].
Proof.
  destruct out_ok_inv as (_ & _ & Hoc).
  rewrite <- (sapp_assoc nl o). rewrite split_first.
  - f_equal. apply split_none; [discriminate |].
    repeat (apply nomatch_app0; [rewrite ?sapp_assoc |]).
    + by_char.
    + by_digits.
    + by_char.
  - discriminate.
  - pieces; [by_char | by_free Hoc].
Qed.

Lemma chunk_split_code :
  split codeSeperator (wireChunk n o c) =
  [n +:+ suffix +:+ nl +:+ o; nl +:+ showNat c +:+ nl].
Proof.
  destruct name_ok_inv as (_ & _ & Hl & _), out_ok_inv as (_ & _ & Hoc).
  unfold wireChunk.
  replace (n +:+ suffix +:+ nl +:+ o +:+ codeSeperator +:+ nl +:+ showNat c +:+ nl)
    with ((n +:+ suffix +:+ nl +:+ o) +:+ codeSeperator +:+ nl +:+ showNat c +:+ nl)
    by now rewrite !sapp_assoc.
  rewrite split_first.
  - f_equal. apply split_none; [discriminate |].
    repeat (apply nomatch_app0; [rewrite ?sapp_assoc |]).
    + by_char.
    + by_digits.
    + by_char.
  - discriminate.
  - pieces.
    + apply nomatch_lit. exact Hl.
    + by_lit.
    + by_char.
    + by_free Hoc.
Qed.

(** A well-formed chunk decodes to its name, its trimmed output and its
    exit status. *)
Lemma decodeCollector_chunk :
  decodeCollector (wireChunk n o c) = Return (decoded (n, o, c)).
Proof.
  destruct name_ok_inv as (_ & _ & _ & Ht).
  unfold decodeCollector.
  rewrite chunk_split_suffix. cbn [item lookup list_lookup bindC].
  rewrite chunk_split_output. cbn [item lookup list_lookup bindC].
  rewrite chunk_split_code. cbn [item lookup list_lookup bindC].
  unfold decoded. cbn [fst snd].
  now rewrite Ht, trim_after_nl, trim_code_line, parseInt_showNat.
Qed.

End Chunk.

Lemma frame_ok_inv (f : string * string * nat) :
  frame_ok f = true ->
  name_ok (fst (fst f)) = true /\ out_ok (snd (fst f)) = true.
Proof. intros H. now apply andb_true_iff in H. Qed.

Lemma split_prefix_chunks (fs : list (string * string * nat)) :
  forall f,
    Forall (fun f => frame_ok f = true) (f :: fs) ->
    split prefix (chunkOf f +:+ wire fs) = chunkOf f :: List.map chunkOf fs.
Proof.
  induction fs as [|g fs IH]; intros f Hf.
  - apply Forall_inv in Hf. apply frame_ok_inv in Hf as [Hn Ho].
    cbn [wire List.map]. rewrite sapp_nil_r.
    apply split_none; [discriminate |]. now apply chunk_no_prefix.
  - pose proof (Forall_inv Hf) as Hf1. apply frame_ok_inv in Hf1 as [Hn Ho].
    apply Forall_inv_tail in Hf.
    destruct g as [[gn go] gc]. cbn [wire List.map]. unfold wireFrame.
    rewrite sapp_assoc, split_first.
    + f_equal. exact (IH (gn, go, gc) Hf).
    + discriminate.
    + now apply chunk_no_prefix.
Qed.

Lemma split_prefix_wire (fs : list (string * string * nat)) :
  Forall (fun f => frame_ok f = true) fs ->
  split prefix (wire fs) = "" :: List.map chunkOf fs.
Proof.
  destruct fs as [|[[n o] c] fs]; intros H; [reflexivity |].
  cbn [wire]. unfold wireFrame. rewrite sapp_assoc.
  change (prefix +:+ wireChunk n o c +:+ wire fs)
    with ("" +:+ prefix +:+ chunkOf (n, o, c) +:+ wire fs).
  rewrite split_first; [| discriminate | exact I].
  f_equal. now apply split_prefix_chunks.
Qed.

(** Decoding the text of well-formed frames gives the frames back, with
    trimmed outputs, in order. *)
Lemma seperateCollectors_wire (fs : list (string * string * nat)) :
  Forall (fun f => frame_ok f = true) fs ->
  seperateCollectors (wire fs) = Return (List.map decoded fs).
Proof.
  intros H. unfold seperateCollectors. rewrite (split_prefix_wire _ H).
  cbn [tail]. induction H as [|[[n o] c] fs Hf _ IH]; [reflexivity |].
  apply frame_ok_inv in Hf as [Hn Ho]. cbn [List.map mapC].
  unfold chunkOf at 1. cbn [fst snd].
  rewrite (decodeCollector_chunk _ _ _ Hn Ho). cbn [bindC].
  now rewrite IH.
Qed.

(** ** [JSON.parse] of a bracketed text *)

Lemma lex_run_app (s1 s2 : string) :
  forall m,
    lex_run m (s1 +:+ s2) =
    match lex_run m s1 with
    | None => None
    | Some (t1, m1) =>
        match lex_run m1 s2 with
        | None => None
        | Some (t2, m2) => Some (t1 ++ t2, m2)
        end
    end.
Proof.
  induction s1 as [|c s1 IH]; intros m.
  - cbn [String.append lex_run]. destruct (lex_run m s2) as [[t2 m2]|]; reflexivity.
  - change (String c s1 +:+ s2) with (String c (s1 +:+ s2)). cbn [lex_run].
    destruct (lex_step m c) as [[ts m']|]; [| reflexivity].
    rewrite IH. destruct (lex_run m' s1) as [[t1 m1]|]; [| reflexivity].
    destruct (lex_run m1 s2) as [[t2 m2]|]; [| reflexivity].
    now rewrite app_assoc.
Qed.

(** A closing bracket ends the token that the end of the text would end. *)
Lemma lex_step_close (m : lexmode) (ts : list token) :
  lex_finish m = Some ts ->
  lex_step m "]" = Some (ts ++ [TRBrack], MNormal).
Proof.
  destruct m as [| | | |st lit|]; try discriminate.
  - intros [= <-]. reflexivity.
  - cbn [lex_finish]. destruct st; cbn [num_accepting]; try discriminate;
      intros [= <-]; reflexivity.
Qed.

Lemma tokenize_bracketed (s : string) (ts : list token) :
  tokenize s = Some ts ->
  tokenize ("[" +:+ s +:+ "]") = Some (TLBrack :: ts ++ [TRBrack]).
Proof.
  unfold tokenize. intros H.
  destruct (lex_run MNormal s) as [[t1 m1]|] eqn:E1; [| discriminate].
  destruct (lex_finish m1) as [tf|] eqn:E2; [| discriminate].
  injection H as <-.
  change ("[" +:+ s +:+ "]") with (String "[" (s +:+ "]")).
  cbn [lex_run]. change (lex_step MNormal "[") with (Some ([TLBrack], MNormal)).
  cbv iota beta. rewrite lex_run_app, E1.
  cbn [lex_run]. rewrite (lex_step_close _ _ E2). cbn [lex_finish].
  rewrite !app_nil_r. cbn [app]. do 2 f_equal. apply app_assoc.
Qed.

Lemma push_value_under (v : JSON) (stack : list container) (st' : pstate) :
  push_value v stack = Some st' ->
  push_value v (stack ++ [CArr []]) = Some (under_array st').
Proof.
  destruct stack as [|[acc|acc [k|]] stack]; cbn; intros [= <-]; reflexivity.
Qed.

Lemma open_value_under (t : token) (stack : list container) (st' : pstate) :
  open_value t stack = Some st' ->
  open_value t (stack ++ [CArr []]) = Some (under_array st').
Proof.
  destruct t; cbn [open_value]; try discriminate;
    try apply push_value_under; intros [= <-]; reflexivity.
Qed.

Lemma parse_step_under (st : pstate) (t : token) (st' : pstate) :
  parse_step st t = Some st' ->
  parse_step (under_array st) t = Some (under_array st').
Proof.
  destruct st as [e stack].
  destruct e; cbn [parse_step under_array]; try discriminate.
  - apply open_value_under.
  - destruct t; try apply open_value_under.
    destruct stack as [|[acc|acc k] stack]; cbn; try discriminate.
    apply push_value_under.
  - destruct t; try discriminate.
    + destruct stack as [|[acc|acc [k|]] stack]; cbn; try discriminate.
      apply push_value_under.
    + destruct stack as [|[acc|acc [k|]] stack]; cbn; try discriminate.
      intros [= <-]. reflexivity.
  - destruct t; try discriminate.
    destruct stack as [|[acc|acc [k|]] stack]; cbn; try discriminate.
    intros [= <-]. reflexivity.
  - destruct t; try discriminate. intros [= <-]. reflexivity.
  - destruct t; try discriminate;
      destruct stack as [|[acc|acc [k|]] stack]; cbn; try discriminate;
      try apply push_value_under; intros [= <-]; reflexivity.
Qed.

Lemma parse_run_under (ts : list token) :
  forall st st',
    parse_run st ts = Some st' ->
    parse_run (under_array st) ts = Some (under_array st').
Proof.
  induction ts as [|t ts IH]; intros st st' H; cbn [parse_run] in *.
  - now injection H as <-.
  - destruct (parse_step st t) as [st1|] eqn:E; [| discriminate].
    rewrite (parse_step_under _ _ _ E). now apply IH.
Qed.

Lemma parse_run_app (ts1 ts2 : list token) :
  forall st,
    parse_run st (ts1 ++ ts2) =
    match parse_run st ts1 with
    | None => None
    | Some st' => parse_run st' ts2
    end.
Proof.
  induction ts1 as [|t ts1 IH]; intros st; cbn [parse_run app]; [reflexivity |].
  destruct (parse_step st t); [apply IH | reflexivity].
Qed.

Lemma parse_run_bracketed (ts : list token) (v : JSON) :
  parse_run (EValue, []) ts = Some (EDone v, []) ->
  parse_run (EValue, []) (TLBrack :: ts ++ [TRBrack]) =
  Some (EDone (JArray [v]), []).
Proof.
  intros H. destruct ts as [|t ts]; [discriminate |].
  cbn [parse_run] in H.
  destruct (parse_step (EValue, []) t) as [st1|] eqn:E; [| discriminate].
  change (parse_run (EValue, []) (TLBrack :: (t :: ts) ++ [TRBrack]))
    with (parse_run (EValueOrEnd, [CArr []]) (t :: ts ++ [TRBrack])).
  cbn [parse_run].
  assert (E' : parse_step (EValueOrEnd, [CArr []]) t = Some (under_array st1)).
  { pose proof (parse_step_under _ _ _ E) as U. cbn [under_array app] in U.
    destruct t; try exact U. discriminate. }
  rewrite E', parse_run_app, (parse_run_under _ _ _ H). reflexivity.
Qed.

(** A text that parses to [v] parses, between brackets, to the array that
    holds [v] alone. *)
Lemma JSON_parse_bracketed (s : string) (v : JSON) :
  JSON_parse s = Some v ->
  JSON_parse ("[" +:+ s +:+ "]") = Some (JArray [v]).
Proof.
  unfold JSON_parse. intros H.
  destruct (tokenize s) as [ts|] eqn:T; [| discriminate].
  rewrite (tokenize_bracketed _ _ T).
  destruct (parse_run (EValue, []) ts) as [[e stack]|] eqn:P; [| discriminate].
  destruct e; try discriminate. destruct stack; [| discriminate].
  injection H as ->. now rewrite (parse_run_bracketed _ _ P).
Qed.

Lemma split_single_line (s : string) :
  has_char "010" s = false -> split nl s = [s].
Proof.
  intros H. apply split_none; [discriminate |]. now apply nomatch_char.
Qed.

(** ** The parsers of the registry *)

Lemma is_zero_false (code : option Z) : code <> Some 0%Z -> is_zero code = false.
Proof. destruct code as [[|q|q]|]; [congruence | reflexivity ..]. Qed.

(** C7 as stated fails: an object written over two lines is a single
    JSON value that is not an array, and the JSON-lines parser returns
    [null] for it.  Nor is it the output itself that has to be well-formed
    JSON: the two-line input of the first case is not, and the result is
    not [null]. *)
Lemma parseJSONArray_multiline_value :
  (JSON_parse object_on_two_lines = Some (JObject [(units "a", JNumber "1")])
   /\ instanceof_Array (JObject [(units "a", JNumber "1")]) = false
   /\ parseJSONArray object_on_two_lines (Some 0%Z) = JNull
   /\ parseJSONArray object_on_two_lines (Some 0%Z)
      <> JArray [JObject [(units "a", JNumber "1")]])
  /\ (JSON_parse two_lines = None
      /\ parseJSONArray two_lines (Some 0%Z) <> JNull).
Proof. repeat split; try reflexivity; discriminate. Qed.

(** C7 (amended): with exit code 0 the two-line input gives the array of
    the two objects; with any other exit code the result is [null]; with
    exit code 0 and a text that [JSON.parse] rejects (the lines joined by
    commas, between brackets) the result is [null]; and with exit code 0
    and a JSON value written on a single line the result is the array that
    holds this value alone. *)
Theorem parseJSONArray_spec :
  parseJSONArray two_lines (Some 0%Z) =
    JArray [JObject [(units "a", JNumber "1")];
            JObject [(units "b", JNumber "2")]]
  /\ (forall stdout code, code <> Some 0%Z -> parseJSONArray stdout code = JNull)
  /\ (forall stdout,
        JSON_parse ("[" +:+ join "," (split nl stdout) +:+ "]") = None ->
        parseJSONArray stdout (Some 0%Z) = JNull)
  /\ (forall stdout v,
        has_char "010" stdout = false ->
        JSON_parse stdout = Some v ->
        parseJSONArray stdout (Some 0%Z) = JArray [v]).
Proof.
  split; [reflexivity |]. split; [| split].
  - intros stdout code H. unfold parseJSONArray.
    now rewrite (is_zero_false _ H).
  - intros stdout H. unfold parseJSONArray. cbn [is_zero]. now rewrite H.
  - intros stdout v Hl Hv. unfold parseJSONArray. cbn [is_zero].
    rewrite (split_single_line _ Hl). cbn [join].
    now rewrite (JSON_parse_bracketed _ _ Hv).
Qed.

Lemma parseJSONArray_spec_witness :
  parseJSONArray "{}" (Some 1%Z) = JNull
  /\ parseJSONArray "{bad" (Some 0%Z) = JNull
  /\ parseJSONArray "{}" (Some 0%Z) = JArray [JObject []].
Proof.
  destruct parseJSONArray_spec as (_ & H1 & H2 & H3).
  split; [| split].
  - apply H1. discriminate.
  - apply H2. reflexivity.
  - apply H3; reflexivity.
Defined.

(** C8: with exit code 0 the parser of the [swarm] collector returns the
    value [JSON.parse] reads from the output, and [null] when [JSON.parse]
    throws; with any other exit code it returns [null]. *)
Theorem swarm_parser_spec :
  (forall stdout code,
     parseCollectorOutput "swarm" stdout code = Return (swarm_parser stdout code))
  /\ (forall stdout v,
        JSON_parse stdout = Some v -> swarm_parser stdout (Some 0%Z) = v)
  /\ (forall stdout,
        JSON_parse stdout = None -> swarm_parser stdout (Some 0%Z) = JNull)
  /\ (forall stdout code, code <> Some 0%Z -> swarm_parser stdout code = JNull).
Proof.
  split; [reflexivity |]. split; [| split].
  - intros stdout v H. unfold swarm_parser. cbn [is_zero]. now rewrite H.
  - intros stdout H. unfold swarm_parser. cbn [is_zero]. now rewrite H.
  - intros stdout code H. unfold swarm_parser. now rewrite (is_zero_false _ H).
Qed.

Lemma swarm_parser_spec_witness :
  swarm_parser ("{" +:+ dquote +:+ "x" +:+ dquote +:+ ":true}") (Some 0%Z)
    = JObject [(units "x", JBool true)]
  /\ swarm_parser "not json" (Some 0%Z) = JNull
  /\ swarm_parser "{}" (Some 1%Z) = JNull.
Proof.
  destruct swarm_parser_spec as (_ & H1 & H2 & H3).
  split; [| split].
  - apply H1. reflexivity.
  - apply H2. reflexivity.
  - apply H3. discriminate.
Defined.

(** C10: with exit code 0 and an empty output the JSON-lines parser
    returns the empty array, not [null]. *)
Theorem parseJSONArray_empty_output :
  parseJSONArray "" (Some 0%Z) = JArray []
  /\ parseJSONArray "" (Some 0%Z) <> JNull.
Proof. split; [reflexivity | discriminate]. Qed.

(** ** The round trip through the remote shell *)

(** What the script of [generateScript] writes: one frame per registered
    probe, in registration order, each with the status of the [echo] that
    precedes [echo $?]. *)
Lemma runScript_generateScript (exec : string -> CmdResult) :
  runScript exec generateScript = Some (wire (written exec)).
Proof.
  unfold written, _collectors. cbn [List.map wire fst snd command].
  unfold wireFrame, wireChunk. rewrite !sapp_assoc. vm_compute. reflexivity.
Qed.

Lemma registered_names_ok :
  Forall (fun kc => name_ok (fst kc) = true) _collectors.
Proof. repeat constructor. Qed.

Lemma written_ok (exec : string -> CmdResult) :
  Forall (fun kc => out_ok (cmd_out (exec (command (snd kc)))) = true) _collectors ->
  Forall (fun f => frame_ok f = true) (written exec).
Proof.
  intros H. unfold written. apply Forall_map.
  pose proof registered_names_ok as N.
  revert H N. generalize _collectors as reg.
  induction reg as [|kc reg IH]; intros H N; [constructor |].
  apply Forall_cons in H as [H1 H2]. apply Forall_cons in N as [N1 N2].
  constructor; [| now apply IH].
  unfold frame_ok. cbn [fst snd]. now rewrite N1, H1.
Qed.

(** Decoding what the script writes. *)
Lemma seperateCollectors_script (exec : string -> CmdResult) :
  Forall (fun kc => out_ok (cmd_out (exec (command (snd kc)))) = true) _collectors ->
  exists o,
    runScript exec generateScript = Some o
    /\ seperateCollectors o = Return (List.map decoded (written exec)).
Proof.
  intros H. exists (wire (written exec)). split.
  - apply runScript_generateScript.
  - apply seperateCollectors_wire. now apply written_ok.
Qed.

(** The exit status of a probe's command does not reach its frame: the
    code of every decoded frame is that of the [echo] run in between. *)
Lemma decoded_codes_are_zero (exec : string -> CmdResult) :
  List.map code (List.map decoded (written exec)) =
  List.map (fun _ => Some 0%Z) _collectors.
Proof. reflexivity. Qed.

Lemma exit_status_not_recorded :
  exists o,
    runScript exec_fail generateScript = Some o
    /\ seperateCollectors o =
       Return (List.map (fun kc => {| name := fst kc; output := "x";
                                      code := Some 0%Z |}) _collectors).
Proof.
  destruct (seperateCollectors_script exec_fail) as (o & Hr & Hd);
    [repeat constructor |].
  exists o. split; [exact Hr |]. rewrite Hd. reflexivity.
Qed.

(** C4 as stated fails: the command of every probe writes the line [x],
    which contains no sentinel, and the decoded frames are not the
    original triples: the outputs come back without the line break. *)
Lemma roundtrip_raw_output_fails :
  Forall (fun kc => out_ok (cmd_out (exec_line (command (snd kc)))) = true) _collectors
  /\ exists o,
       runScript exec_line generateScript = Some o
       /\ seperateCollectors o <> Return (List.map original (executed exec_line)).
Proof.
  split; [repeat constructor |].
  destruct (seperateCollectors_script exec_line) as (o & Hr & Hd);
    [repeat constructor |].
  exists o. split; [exact Hr |]. rewrite Hd. vm_compute. discriminate.
Qed.

(** C4 (amended): when the raw outputs of the registered commands contain
    none of the sentinel literals, decoding what the encoded script writes
    yields exactly one frame per registered probe, with the names in
    registration order and each output equal to the trimmed raw output. *)
Theorem roundtrip_names_and_trimmed_outputs (exec : string -> CmdResult) :
  Forall (fun kc => out_ok (cmd_out (exec (command (snd kc)))) = true) _collectors ->
  exists o frames,
    runScript exec generateScript = Some o
    /\ seperateCollectors o = Return frames
    /\ length frames = length _collectors
    /\ List.map name frames = List.map fst _collectors
    /\ List.map output frames =
       List.map (fun kc => trim (cmd_out (exec (command (snd kc))))) _collectors.
Proof.
  intros H. destruct (seperateCollectors_script exec H) as (o & Hr & Hd).
  exists o, (List.map decoded (written exec)).
  repeat split; try assumption; reflexivity.
Qed.

Lemma roundtrip_names_and_trimmed_outputs_witness :
  exists o frames,
    runScript exec_line generateScript = Some o
    /\ seperateCollectors o = Return frames
    /\ length frames = length _collectors
    /\ List.map name frames = List.map fst _collectors
    /\ List.map output frames =
       List.map (fun kc => trim (cmd_out (exec_line (command (snd kc))))) _collectors.
Proof.
  apply (roundtrip_names_and_trimmed_outputs exec_line). repeat constructor.
Defined.

(** ** Decoding malformed chunks *)

Lemma nomatch_occurs (sep a : string) :
  occurs sep a = false -> nomatch sep a "".
Proof.
  induction a as [|x a IH]; intros H; [exact I |].
  apply occurs_cons_false in H as [H1 H2].
  split; [now rewrite sapp_nil_r | now apply IH].
Qed.

(** Without an occurrence of the separator there is no second piece. *)
Lemma item1_absent (sep s : string) :
  sep <> "" -> occurs sep s = false -> item (split sep s) 1 = Throw TypeError.
Proof.
  intros Hs H. rewrite (split_none _ _ Hs (nomatch_occurs _ _ H)). reflexivity.
Qed.

Lemma split_from_second (c : ascii) (sep s : string) :
  occurs (String c sep) s = true -> snd (split_from (String c sep) 0 s) <> [].
Proof.
  induction s as [|x s IH]; intros H; [discriminate |].
  cbn [split_from].
  destruct (starts (String c sep) (String x s)) eqn:E; [discriminate |].
  cbn [snd]. apply IH.
  change (starts (String c sep) (String x s) || occurs (String c sep) s = true) in H.
  now rewrite E in H.
Qed.

Lemma item1_present (sep s : string) :
  sep <> "" -> occurs sep s = true -> exists x, item (split sep s) 1 = Return x.
Proof.
  destruct sep as [|c sep]; [congruence |]. intros _ H.
  rewrite split_unfold. pose proof (split_from_second _ _ _ H) as N.
  destruct (snd (split_from (String c sep) 0 s)) as [|x l]; [congruence |].
  exists x. reflexivity.
Qed.

Lemma item0_present (sep s : string) :
  sep <> "" -> exists x, item (split sep s) 0 = Return x.
Proof.
  destruct sep as [|c sep]; [congruence |]. intros _.
  rewrite split_unfold. eexists. reflexivity.
Qed.

(** A chunk decodes exactly when it is framed. *)
Lemma decodeCollector_framed (chunk : string) :
  framed chunk = true -> exists f, decodeCollector chunk = Return f.
Proof.
  intros H. apply andb_true_iff in H as [Hs Hc].
  unfold decodeCollector.
  destruct (item0_present suffix chunk) as (x0 & ->); [discriminate |].
  destruct (item1_present suffix chunk) as (x1 & ->); [discriminate | exact Hs |].
  cbn [bindC].
  destruct (item0_present codeSeperator x1) as (x2 & ->); [discriminate |].
  destruct (item1_present codeSeperator chunk) as (x3 & ->);
    [discriminate | exact Hc |].
  cbn [bindC]. eexists. reflexivity.
Qed.

Lemma decodeCollector_unframed (chunk : string) :
  framed chunk = false -> decodeCollector chunk = Throw TypeError.
Proof.
  intros H. unfold decodeCollector.
  destruct (item0_present suffix chunk) as (x0 & ->); [discriminate |].
  cbn [bindC].
  destruct (occurs suffix chunk) eqn:Hs.
  - destruct (item1_present suffix chunk) as (x1 & ->); [discriminate | exact Hs |].
    cbn [bindC].
    destruct (item0_present codeSeperator x1) as (x2 & ->); [discriminate |].
    cbn [bindC]. unfold framed in H. rewrite Hs in H. cbn [andb] in H.
    rewrite item1_absent; [reflexivity | discriminate | exact H].
  - rewrite item1_absent; [reflexivity | discriminate | exact Hs].
Qed.

(** The code of a frame is read from what follows the first code
    separator of its chunk. *)
Lemma decodeCollector_code (chunk : string) (f : ProbeFrame) :
  decodeCollector chunk = Return f ->
  exists afterCode,
    item (split codeSeperator chunk) 1 = Return afterCode
    /\ code f = parseInt (trim afterCode).
Proof.
  unfold decodeCollector.
  destruct (item (split suffix chunk) 0) as [x0|]; [| discriminate].
  destruct (item (split suffix chunk) 1) as [x1|]; [| discriminate].
  cbn [bindC].
  destruct (item (split codeSeperator x1) 0) as [x2|]; [| discriminate].
  destruct (item (split codeSeperator chunk) 1) as [x3|]; [| discriminate].
  cbn [bindC]. intros [= <-]. exists x3. split; reflexivity.
Qed.

Lemma mapC_decode_all (l : list string) :
  Forall (fun c => framed c = true) l ->
  exists frames,
    mapC decodeCollector l = Return frames
    /\ Forall2 (fun c f => decodeCollector c = Return f) l frames.
Proof.
  induction 1 as [|c l Hc _ (frames & E & F)].
  - exists []. split; [reflexivity | constructor].
  - destruct (decodeCollector_framed _ Hc) as (f & Ef).
    exists (f :: frames). split.
    + cbn [mapC]. rewrite Ef. cbn [bindC]. rewrite E. reflexivity.
    + now constructor.
Qed.

Lemma mapC_decode_some (l : list string) :
  Exists (fun c => framed c = false) l ->
  mapC decodeCollector l = Throw TypeError.
Proof.
  induction l as [|c l IH]; intros H; [now apply Exists_nil in H |].
  cbn [mapC]. destruct (framed c) eqn:Hc.
  - destruct (decodeCollector_framed _ Hc) as (f & ->). cbn [bindC].
    apply Exists_cons in H as [H | H]; [congruence |].
    now rewrite (IH H).
  - now rewrite (decodeCollector_unframed _ Hc).
Qed.

(** Every registered parser answers [null] to a code that is not [0]. *)
Lemma registered_parser_null (n o : string) (c : option Z) (col : Collector) :
  lookup_collector n _collectors = Some col ->
  c <> Some 0%Z ->
  parser col o c = JNull.
Proof.
  intros L Hc. pose proof (is_zero_false _ Hc) as Z0.
  unfold _collectors in L. cbn [lookup_collector] in L.
  repeat match type of L with
  | (if ?b then _ else _) = _ => destruct b
  end; try discriminate; injection L as <-; cbn [parser];
    unfold swarm_parser, parseJSONArray, swarmToken_parser; now rewrite Z0.
Qed.

(** C2 as stated fails: the first chunk is well formed, the second lacks
    the stop sentinel (or has it and lacks the code separator), and the
    decode throws instead of returning a frame list. *)
Lemma seperateCollectors_aborts :
  seperateCollectors (wireFrame "swarm" "{}" 0)
    = Return [{| name := "swarm"; output := "{}"; code := Some 0%Z |}]
  /\ seperateCollectors cut_short = Throw TypeError
  /\ seperateCollectors no_code = Throw TypeError
  /\ ~ exists frames, seperateCollectors cut_short = Return frames.
Proof.
  repeat split; try reflexivity. intros (frames & H). discriminate H.
Qed.

(** C2 (amended): for every combined-output string, when every chunk
    contains the stop sentinel and the inner code separator the decode
    returns one frame per chunk, each decoded from its own chunk; a chunk
    whose trailing integer is missing still gives a frame, with the code
    [NaN], to which every registered parser answers [null]; and when some
    chunk lacks the stop sentinel or the code separator the decode throws
    [TypeError]. *)
Theorem seperateCollectors_spec (combined : string) :
  (Forall (fun c => framed c = true) (chunks combined) ->
     exists frames,
       seperateCollectors combined = Return frames
       /\ Forall2 (fun c f => decodeCollector c = Return f) (chunks combined) frames)
  /\ (Exists (fun c => framed c = false) (chunks combined) ->
        seperateCollectors combined = Throw TypeError)
  /\ (forall frames f,
        seperateCollectors combined = Return frames ->
        In f frames ->
        code f = None ->
        lookup_collector (name f) _collectors <> None ->
        parseCollectorOutput (name f) (output f) (code f) = Return JNull).
Proof.
  split; [| split].
  - apply mapC_decode_all.
  - apply mapC_decode_some.
  - intros frames f _ _ Hc Hn. unfold parseCollectorOutput.
    destruct (lookup_collector (name f) _collectors) as [col|] eqn:L;
      [| congruence].
    rewrite (registered_parser_null _ (output f) (code f) _ L); [reflexivity |].
    rewrite Hc. discriminate.
Qed.

Lemma seperateCollectors_spec_witness :
  (exists frames,
     seperateCollectors no_integer = Return frames
     /\ Forall2 (fun c f => decodeCollector c = Return f) (chunks no_integer) frames)
  /\ seperateCollectors no_code = Throw TypeError
  /\ parseCollectorOutput "images" "[]" None = Return JNull.
Proof.
  split; [| split].
  - apply (proj1 (seperateCollectors_spec no_integer)).
    vm_compute. repeat constructor.
  - apply (proj1 (proj2 (seperateCollectors_spec no_code))).
    vm_compute. apply Exists_cons_tl, Exists_cons_hd. reflexivity.
  - apply (proj2 (proj2 (seperateCollectors_spec no_integer))
             [ {| name := "swarm"; output := "{}"; code := Some 0%Z |};
               {| name := "images"; output := "[]"; code := None |} ]
             {| name := "images"; output := "[]"; code := None |}).
    + reflexivity.
    + right. left. reflexivity.
    + reflexivity.
    + discriminate.
Defined.

(** ** [createHostResult] *)

Lemma assign_after_throw (l : list ProbeFrame) (e : JSError) :
  fold_left assignProbe l (Throw e) = Throw e.
Proof. induction l as [|f l IH]; [reflexivity | exact IH]. Qed.

Lemma registered_parse (f : ProbeFrame) :
  registered (name f) = true ->
  exists v, parseCollectorOutput (name f) (output f) (code f) = Return v.
Proof.
  unfold registered, parseCollectorOutput.
  destruct (lookup_collector (name f) _collectors); [eauto | discriminate].
Qed.

Lemma unregistered_parse (f : ProbeFrame) :
  registered (name f) = false ->
  parseCollectorOutput (name f) (output f) (code f) = Throw TypeError.
Proof.
  unfold registered, parseCollectorOutput.
  destruct (lookup_collector (name f) _collectors); [discriminate | reflexivity].
Qed.

Lemma assign_registered (l : list ProbeFrame) :
  Forall (fun f => registered (name f) = true) l ->
  forall r0,
  exists r,
    fold_left assignProbe l (Return r0) = Return r
    /\ _host r = _host r0
    /\ dom (probes r) = dom (probes r0) ∪ list_to_set (List.map name l)
    /\ forall n v,
         probes r !! n = Some v ->
         probes r0 !! n = Some v
         \/ exists f, In f l /\ name f = n
                      /\ parseCollectorOutput n (output f) (code f) = Return v.
Proof.
  induction 1 as [|f l Hf _ IH]; intros r0.
  - exists r0. cbn [fold_left List.map list_to_set].
    rewrite (right_id_L ∅ (∪)). auto.
  - destruct (registered_parse _ Hf) as (v0 & Ev).
    destruct (IH {| _host := _host r0; probes := <[name f := v0]> (probes r0) |})
      as (r & Er & Hh & Hd & Hl).
    exists r. cbn [fold_left]. unfold assignProbe at 2. cbn [bindC].
    rewrite Ev. cbn [bindC]. rewrite Er.
    split; [reflexivity |]. split; [exact Hh |]. split.
    + rewrite Hd. cbn [probes List.map list_to_set]. rewrite dom_insert_L.
      rewrite (comm_L (∪) {[name f]} (dom (probes r0))).
      now rewrite (assoc_L (∪)).
    + intros n v Hn. destruct (Hl n v Hn) as [H0 | (g & Hg & Hgn & Hgv)].
      * cbn [probes] in H0. destruct (decide (name f = n)) as [<- | Hne].
        -- rewrite lookup_insert_eq in H0. injection H0 as <-.
           right. exists f. split; [now left | auto].
        -- rewrite lookup_insert_ne in H0 by exact Hne. now left.
      * right. exists g. split; [now right | auto].
Qed.

Lemma assign_unregistered (l : list ProbeFrame) :
  Exists (fun f => registered (name f) = false) l ->
  forall r0, fold_left assignProbe l (Return r0) = Throw TypeError.
Proof.
  induction l as [|f l IH]; intros H r0; [now apply Exists_nil in H |].
  cbn [fold_left]. unfold assignProbe at 2. cbn [bindC].
  destruct (registered (name f)) eqn:Hf.
  - destruct (registered_parse _ Hf) as (v0 & ->). cbn [bindC].
    apply Exists_cons in H as [H | H]; [congruence |]. now apply IH.
  - rewrite (unregistered_parse _ Hf). cbn [bindC]. apply assign_after_throw.
Qed.

(** C3 as stated fails: with no frame at hand the host result holds the
    host and nothing else; the registered probe [swarm] has no entry. *)
Lemma createHostResult_absent_key :
  exists r,
    createHostResult [] "web1" = Return r
    /\ _host r = "web1"
    /\ registered "swarm" = true
    /\ probes r !! "swarm" = None.
Proof. eexists. repeat split; reflexivity. Qed.

(** C3 (amended): for every host and every frame list whose names are all
    registered, [createHostResult] returns an object with [_host] set to the
    host and exactly one entry per name that occurs in the frame list; the
    entry is what the probe's parser returns for a frame of that name, and
    it is [null] when no frame of that name has code [0].  A frame whose
    name is not registered makes [createHostResult] throw [TypeError]. *)
Theorem createHostResult_spec (frames : list ProbeFrame) (host : string) :
  (Forall (fun f => registered (name f) = true) frames ->
     exists r,
       createHostResult frames host = Return r
       /\ _host r = host
       /\ dom (probes r) = list_to_set (List.map name frames)
       /\ (forall n v,
             probes r !! n = Some v ->
             exists f, In f frames /\ name f = n
                       /\ parseCollectorOutput n (output f) (code f) = Return v)
       /\ (forall n,
             In n (List.map name frames) ->
             (forall f, In f frames -> name f = n -> code f <> Some 0%Z) ->
             probes r !! n = Some JNull))
  /\ (Exists (fun f => registered (name f) = false) frames ->
        createHostResult frames host = Throw TypeError).
Proof.
  split.
  - intros H.
    destruct (assign_registered _ H {| _host := host; probes := ∅ |})
      as (r & Er & Hh & Hd & Hl).
    cbn [_host probes] in *. rewrite dom_empty_L, (left_id_L ∅ (∪)) in Hd.
    assert (Hl' : forall n v, probes r !! n = Some v ->
              exists f, In f frames /\ name f = n
                /\ parseCollectorOutput n (output f) (code f) = Return v).
    { intros n v Hn. destruct (Hl n v Hn) as [H0 | H0]; [| exact H0].
      rewrite lookup_empty in H0. discriminate. }
    exists r. repeat split; try assumption.
    intros n Hn Hc.
    assert (Hin : n ∈ dom (probes r)).
    { rewrite Hd. apply elem_of_list_to_set, list_elem_of_In. exact Hn. }
    apply elem_of_dom in Hin as (v & Hv). rewrite Hv. f_equal.
    destruct (Hl' n v Hv) as (f & Hf & Hfn & Hp).
    unfold parseCollectorOutput in Hp.
    destruct (lookup_collector n _collectors) as [col|] eqn:L; [| discriminate].
    injection Hp as <-.
    exact (registered_parser_null _ _ _ _ L (Hc f Hf Hfn)).
  - intros H. now apply assign_unregistered.
Qed.

Lemma createHostResult_spec_witness :
  (exists r,
     createHostResult
       [ {| name := "swarm"; output := "{}"; code := Some 0%Z |};
         {| name := "images"; output := "[]"; code := Some 1%Z |} ] "web1" = Return r
     /\ _host r = "web1"
     /\ dom (probes r) = list_to_set ["swarm"; "images"]
     /\ probes r !! "images" = Some JNull)
  /\ createHostResult
       [ {| name := "nosuchprobe"; output := ""; code := Some 0%Z |} ] "web1"
     = Throw TypeError.
Proof.
  split.
  - destruct (proj1 (createHostResult_spec
       [ {| name := "swarm"; output := "{}"; code := Some 0%Z |};
         {| name := "images"; output := "[]"; code := Some 1%Z |} ] "web1"))
      as (r & Er & Hh & Hd & _ & Hn).
    + repeat constructor.
    + exists r. repeat split; try assumption.
      apply Hn.
      * right. left. reflexivity.
      * intros f [<- | [<- | []]]; cbn; intros; discriminate.
  - apply (proj2 (createHostResult_spec
       [ {| name := "nosuchprobe"; output := ""; code := Some 0%Z |} ] "web1")).
    apply Exists_cons_hd. reflexivity.
Defined.

(** ** The fleet orchestrator *)

Lemma map_in_order_resolved {A B} (mapper : A -> Settled B) (items : list A) :
  (forall a, exists b, mapper a = Resolved b) ->
  exists bs,
    map_in_order mapper items = Resolved bs
    /\ Forall2 (fun a b => mapper a = Resolved b) items bs.
Proof.
  intros H. unfold map_in_order. induction items as [|a items (bs & E & F)].
  - exists []. split; [reflexivity | constructor].
  - destruct (H a) as (b & Eb). exists (b :: bs). split.
    + cbn [map_in_order_from]. now rewrite Eb, E.
    + now constructor.
Qed.

Section Fleet.

Variable runSSHCommand : Server -> string -> Settled SSHResult.
Variable Vars : Type.
Variable vars : Vars.

(** The promise of [getServerInfo] never rejects: the [catch] turns every
    failure into the value [undefined]. *)
Lemma getServerInfo_resolves (server : Server) :
  exists r, settled (getServerInfo runSSHCommand vars server) = Resolved r.
Proof.
  unfold getServerInfo.
  destruct (runSSHCommand server generateScript) as [result | err];
    [| eexists; reflexivity].
  destruct (bindC _ _); eexists; reflexivity.
Qed.

(** A host whose transport call rejects is logged and yields [undefined]. *)
Lemma getServerInfo_transport_error (server : Server) (err : JSError) :
  runSSHCommand server generateScript = Rejected err ->
  getServerInfo runSSHCommand vars server =
  {| logged := [(err, server)]; settled := Resolved None |}.
Proof. intros H. unfold getServerInfo. now rewrite H. Qed.

Lemma collect_after_throw (l : list (option HostResult)) (e : JSError) :
  fold_left addServerResult l (Throw e) = Throw e.
Proof. induction l as [|x l IH]; [reflexivity | exact IH]. Qed.

Lemma collect_undefined (l : list (option HostResult)) :
  In None l ->
  forall result0,
    fold_left addServerResult l (Return result0) = Throw TypeError.
Proof.
  induction l as [|x l IH]; intros H result0; [destruct H |].
  cbn [fold_left]. unfold addServerResult at 2. cbn [bindC].
  destruct x as [hr|].
  - destruct H as [H | H]; [discriminate |]. now apply IH.
  - apply collect_after_throw.
Qed.

(** Reading [_host] of the [undefined] left by a failed host throws. *)
Lemma collectResults_undefined (l : list (option HostResult)) :
  In None l -> collectResults l = Throw TypeError.
Proof. intros H. unfold collectResults. now apply collect_undefined. Qed.

(** C1 (code bug): when the transport call of one of the servers rejects,
    [serverInfo] does not resolve to a fleet result: its promise is
    rejected with [TypeError], whatever the other servers answer. *)
Theorem serverInfo_rejects_when_a_host_fails
    (servers : list Server) (server : Server) (err : JSError) :
  In server servers ->
  runSSHCommand server generateScript = Rejected err ->
  serverInfo runSSHCommand vars servers = Rejected TypeError.
Proof.
  intros Hin Herr. unfold serverInfo.
  destruct (map_in_order_resolved
              (fun server => settled (getServerInfo runSSHCommand vars server))
              servers getServerInfo_resolves) as (rs & -> & F).
  assert (Hn : In None rs).
  { clear -Hin Herr F. induction F as [|s r servers rs Hs _ IH]; [destruct Hin |].
    destruct Hin as [-> | Hin].
    - rewrite (getServerInfo_transport_error _ _ Herr) in Hs.
      injection Hs as <-. now left.
    - right. now apply IH. }
  now rewrite (collectResults_undefined _ Hn).
Qed.

(** C9: while [serverInfo] maps over the servers, at most 2 mapper
    promises, each one call of [runSSHCommand], are pending. *)
Theorem serverInfo_at_most_two_in_flight
    (servers : list Server) (st : MapState (option HostResult)) :
  serverInfo_map runSSHCommand vars servers st ->
  length (inflight st) <= 2.
Proof.
  unfold serverInfo_map, map_reachable. revert st.
  apply rtc_ind_r; [cbn; lia |].
  intros st st' _ Hs IH.
  destruct Hs as [st i Hi Hc Hn | st i a b Hi Ha Hm | st i a e Hi Ha Hm];
    cbn [inflight].
  - cbn [length]. lia.
  - pose proof (length_filter (fun j => j <> i) (inflight st)). unfold without. lia.
  - pose proof (length_filter (fun j => j <> i) (inflight st)). unfold without. lia.
Qed.

End Fleet.

Lemma serverInfo_rejects_when_a_host_fails_witness :
  serverInfo one_host_down tt [web1; web2] = Rejected TypeError.
Proof.
  apply (serverInfo_rejects_when_a_host_fails one_host_down unit tt
           [web1; web2] web1 (OtherError "connect ECONNREFUSED")).
  - left. reflexivity.
  - reflexivity.
Defined.

Lemma serverInfo_at_most_two_in_flight_witness :
  length (inflight two_called) <= 2.
Proof.
  apply (serverInfo_at_most_two_in_flight one_host_down unit tt five_hosts).
  unfold serverInfo_map, map_reachable.
  eapply rtc_l.
  { apply (map_call _ five_hosts 2 (map_init five_hosts) 0).
    - vm_compute. apply list_elem_of_here.
    - vm_compute. lia.
    - reflexivity. }
  eapply rtc_l; [| apply rtc_refl].
  apply (map_call _ five_hosts 2
           {| pending := [1; 2; 3; 4]; inflight := [0];
              slots := [None; None; None; None; None]; rejection := None |} 1).
  - apply list_elem_of_here.
  - vm_compute. lia.
  - reflexivity.
Defined.


(** ** The schedules of [map] *)

Lemma omap_id_Some {B : Type} (bs : list B) : omap id (Some <$> bs) = bs.
Proof. induction bs as [|b bs IH]; [reflexivity |]. cbn. now rewrite IH. Qed.

Section MapSchedules.

Context {A B : Type}.
Variable mapper : A -> Settled B.
Variable items : list A.
Variable concurrency : nat.
Hypothesis mapper_resolves : forall a, exists b, mapper a = Resolved b.

Lemma map_inv_init : map_inv mapper items (map_init items).
Proof.
  unfold map_inv, map_init. cbn [rejection slots pending inflight].
  split; [reflexivity |]. split; [apply length_replicate |]. split.
  - intros i [Hi | Hi]; [| now apply elem_of_nil in Hi].
    apply elem_of_seq in Hi. lia.
  - intros i a Ha. left. apply elem_of_seq.
    apply lookup_lt_Some in Ha. lia.
Qed.

Lemma map_inv_step (st st' : MapState B) :
  map_inv mapper items st ->
  map_step mapper items concurrency st st' ->
  map_inv mapper items st'.
Proof.
  intros (Hr & Hl & Hb & Hs) Hstep.
  destruct Hstep as [st i Hi Hc Hn | st i a b Hi Ha Hm | st i a e Hi Ha Hm];
    unfold map_inv; cbn [rejection slots pending inflight].
  - split; [reflexivity |]. split; [exact Hl |]. split.
    + intros j [Hj | Hj].
      * apply list_elem_of_filter in Hj as [_ Hj]. apply Hb. now left.
      * apply elem_of_cons in Hj as [-> | Hj]; apply Hb; auto.
    + intros j a Ha. destruct (Hs j a Ha) as [Hj | [Hj | Hj]].
      * destruct (decide (j = i)) as [-> | Hne].
        -- right. left. apply list_elem_of_here.
        -- left. apply list_elem_of_filter. auto.
      * right. left. now apply list_elem_of_further.
      * right. right. exact Hj.
  - split; [exact Hr |]. split; [now rewrite length_insert |]. split.
    + intros j [Hj | Hj].
      * apply Hb. now left.
      * apply list_elem_of_filter in Hj as [_ Hj]. apply Hb. now right.
    + intros j a' Ha'. destruct (decide (j = i)) as [-> | Hne].
      * right. right. exists b. rewrite Ha in Ha'. injection Ha' as <-.
        split; [exact Hm |]. apply list_lookup_insert_eq.
        rewrite Hl. now apply lookup_lt_Some in Ha.
      * destruct (Hs j a' Ha') as [Hj | [Hj | (b' & Hb' & Hj)]].
        -- now left.
        -- right. left. apply list_elem_of_filter. auto.
        -- right. right. exists b'. split; [exact Hb' |].
           rewrite list_lookup_insert_ne by congruence. exact Hj.
  - destruct (mapper_resolves a) as (b & Hb'). congruence.
Qed.

Lemma map_inv_reachable (st : MapState B) :
  map_reachable mapper items concurrency st -> map_inv mapper items st.
Proof.
  unfold map_reachable. revert st. apply rtc_ind_r; [apply map_inv_init |].
  intros st st' _ Hs IH. exact (map_inv_step _ _ IH Hs).
Qed.

(** Whatever the schedule, once [map] has settled it has resolved with the
    values of the mapper promises in the order of the items. *)
Lemma map_schedule_independent (st : MapState B) (out : Settled (list B)) :
  map_reachable mapper items concurrency st ->
  map_result st = Some out ->
  out = map_in_order mapper items.
Proof.
  intros Hreach Hout. apply map_inv_reachable in Hreach as (Hr & Hl & _ & Hs).
  unfold map_result in Hout. rewrite Hr in Hout.
  destruct (pending st) as [|p ps] eqn:Ep; [| discriminate].
  destruct (inflight st) as [|q qs] eqn:Eq; [| discriminate].
  injection Hout as <-.
  destruct (map_in_order_resolved mapper items mapper_resolves) as (bs & -> & F).
  f_equal. rewrite <- (omap_id_Some bs). f_equal.
  apply list_eq. intros i. rewrite list_lookup_fmap.
  destruct (items !! i) as [a|] eqn:Ha.
  - destruct (Hs i a Ha) as [Hi | [Hi | (b & Hb & Hi)]];
      [now apply elem_of_nil in Hi | now apply elem_of_nil in Hi |].
    destruct (Forall2_lookup_l _ _ _ _ _ F Ha) as (b' & Hb' & Hm).
    rewrite Hi, Hb'. cbn. congruence.
  - apply lookup_ge_None in Ha.
    rewrite (lookup_ge_None_2 (slots st)) by lia.
    rewrite (lookup_ge_None_2 bs); [reflexivity |].
    apply Forall2_length in F. lia.
Qed.



End MapSchedules.

Section FleetSchedules.

Variable runSSHCommand : Server -> string -> Settled SSHResult.
Variable Vars : Type.
Variable vars : Vars.

(** [serverInfo] settles the same way under every schedule of [map]. *)
Lemma serverInfo_any_schedule
    (servers : list Server) (st : MapState (option HostResult))
    (out : Settled (list (option HostResult))) :
  serverInfo_map runSSHCommand vars servers st ->
  map_result st = Some out ->
  serverInfo runSSHCommand vars servers =
  match out with
  | Resolved serverResults => settle (collectResults serverResults)
  | Rejected e => Rejected e
  end.
Proof.
  intros Hreach Hout. unfold serverInfo.
  now rewrite <- (map_schedule_independent _ _ 2
                    (getServerInfo_resolves runSSHCommand Vars vars)
                    st out Hreach Hout).
Qed.


End FleetSchedules.

(** ** The dispatch engine *)

Lemma hook_calls_only (key : string) {World : Type} (hs : list (Hook World)) :
  forall g : nat -> nat,
    List.filter is_handler_call (imap (fun i _ => CallHook key (g i)) hs) = [].
Proof.
  induction hs as [|h hs IH]; intros g; [reflexivity |].
  cbn [imap List.filter is_handler_call]. exact (IH (g ∘ S)).
Qed.

Lemma hookCalls_no_handler (key : string) {World : Type} (hs : list (Hook World)) :
  List.filter is_handler_call (hookCalls key hs) = [].
Proof. exact (hook_calls_only key hs (fun i => i)). Qed.

Section DispatchProperties.

Context {World Result : Type}.
Variable commands : gmap string (Command World Result).
Variable hooks : gmap string (list (Hook World)).

(** C5: for a registered command whose handler does not fail,
    [runCommand] invokes the pre-hooks in registration order, then the
    handler, exactly once, then the post-hooks in registration order, and
    resolves with the handler's result; the hooks and the handler have
    acted on the state in that order. *)
Theorem runCommand_order
    (n : string) (cmd : Command World Result) (w w' : World) (r : Result) :
  n <> "" ->
  commands !! n = Some cmd ->
  handler cmd (runHooks (default [] (hooks !! ("pre." +:+ n))) w) = Return (w', r) ->
  calls (runCommand commands hooks (Some n) w) =
    hookCalls ("pre." +:+ n) (default [] (hooks !! ("pre." +:+ n)))
    ++ [CallHandler n]
    ++ hookCalls ("post." +:+ n) (default [] (hooks !! ("post." +:+ n)))
  /\ outcome (runCommand commands hooks (Some n) w) =
     Resolved (runHooks (default [] (hooks !! ("post." +:+ n))) w', r)
  /\ List.filter is_handler_call (calls (runCommand commands hooks (Some n) w)) =
     [CallHandler n].
Proof.
  intros Hn Hc Hh. unfold runCommand.
  apply String.eqb_neq in Hn. rewrite Hn, Hc, Hh. cbn [calls outcome].
  rewrite <- app_assoc. split; [reflexivity |]. split; [reflexivity |].
  rewrite !List.filter_app, !hookCalls_no_handler. reflexivity.
Qed.

(** C6: called without a name, with the empty name, or with a name under
    which no command is registered, [runCommand] rejects and has invoked
    no hook and no handler. *)
Theorem runCommand_rejects (name : option string) (w : World) :
  name = None \/ name = Some ""
  \/ (exists n, name = Some n /\ commands !! n = None) ->
  calls (runCommand commands hooks name w) = []
  /\ exists e, outcome (runCommand commands hooks name w) = Rejected e.
Proof.
  intros [-> | [-> | (n & -> & Hn)]]; cbn [runCommand].
  - split; [reflexivity | eexists; reflexivity].
  - split; [reflexivity | eexists; reflexivity].
  - destruct (String.eqb n ""); [split; [reflexivity | eexists; reflexivity] |].
    rewrite Hn. split; [reflexivity | eexists; reflexivity].
Qed.

End DispatchProperties.

(** The unit test: [runCommand('test.logs')] runs the pre-hook, the
    handler and the post-hook, in this order. *)
Lemma runCommand_order_witness :
  calls (runCommand test_commands test_hooks (Some "test.logs") flags0) =
    [CallHook "pre.test.logs" 0; CallHandler "test.logs"; CallHook "post.test.logs" 0]
  /\ outcome (runCommand test_commands test_hooks (Some "test.logs") flags0) =
     Resolved ({| commandCalled := true; preHookCalled := true;
                  postHookCalled := true |}, tt)
  /\ List.filter is_handler_call
       (calls (runCommand test_commands test_hooks (Some "test.logs") flags0)) =
     [CallHandler "test.logs"].
Proof.
  apply (runCommand_order test_commands test_hooks "test.logs" test_handler flags0
           {| commandCalled := true; preHookCalled := true;
              postHookCalled := false |} tt).
  - discriminate.
  - reflexivity.
  - reflexivity.
Defined.

(** The unit test: [runCommand()] and [runCommand('nonexistent.command')]
    reject. *)
Lemma runCommand_rejects_witness :
  (calls (runCommand test_commands test_hooks None flags0) = []
   /\ exists e, outcome (runCommand test_commands test_hooks None flags0) = Rejected e)
  /\ (calls (runCommand test_commands test_hooks (Some "nonexistent.command") flags0) = []
      /\ exists e, outcome (runCommand test_commands test_hooks
                              (Some "nonexistent.command") flags0) = Rejected e).
Proof.
  split.
  - apply (runCommand_rejects test_commands test_hooks None flags0). now left.
  - apply (runCommand_rejects test_commands test_hooks
             (Some "nonexistent.command") flags0).
    right. right. exists "nonexistent.command". split; reflexivity.
Defined.

(* ===================================================================== *)
(** * Part III: further properties of src/server-info.js                  *)
(* ===================================================================== *)

(** ** [trim] *)

Lemma trimStart_head (s : string) (c : ascii) (r : string) :
  trimStart s = String c r -> is_ws c = false.
Proof.
  induction s as [|d s IH]; cbn [trimStart]; [discriminate |].
  destruct (is_ws d) eqn:E; [exact IH |]. now intros [= <- _].
Qed.

Lemma trimEnd_head (c : ascii) (t : string) :
  is_ws c = false -> exists r, trimEnd (String c t) = String c r.
Proof.
  intros H. cbn [trimEnd]. destruct (trimEnd t); [rewrite H |]; eauto.
Qed.

Lemma trimEnd_idem (s : string) : trimEnd (trimEnd s) = trimEnd s.
Proof.
  induction s as [|c s IH]; [reflexivity |]. cbn [trimEnd].
  destruct (trimEnd s) as [|d t] eqn:E.
  - destruct (is_ws c) eqn:W; [reflexivity |]. cbn [trimEnd]. now rewrite W.
  - cbn [trimEnd]. cbn [trimEnd] in IH. now rewrite IH.
Qed.

(** Trimming a trimmed string changes nothing. *)
Lemma trim_idem (s : string) : trim (trim s) = trim s.
Proof.
  unfold trim. destruct (trimStart s) as [|c r] eqn:E; [reflexivity |].
  destruct (trimEnd_head c r (trimStart_head _ _ _ E)) as (r' & Hr).
  rewrite Hr. cbn [trimStart]. rewrite (trimStart_head _ _ _ E).
  rewrite <- Hr. apply trimEnd_idem.
Qed.

Lemma occurs_cons (p : string) (c : ascii) (s : string) :
  occurs p s = true -> occurs p (String c s) = true.
Proof.
  intros H. change (starts p (String c s) || occurs p s = true).
  rewrite H. apply orb_true_r.
Qed.

Lemma starts_app_r (p x w : string) :
  starts p x = true -> starts p (x +:+ w) = true.
Proof.
  revert x. induction p as [|a p IH]; intros x H; [reflexivity |].
  destruct x as [|b x]; [discriminate |]. cbn [starts String.append] in *.
  apply andb_true_iff in H as [H1 H2]. now rewrite H1, (IH _ H2).
Qed.

Lemma occurs_app_r (p x w : string) :
  occurs p x = true -> occurs p (x +:+ w) = true.
Proof.
  induction x as [|c x IH]; intros H.
  - cbn in H. rewrite orb_false_r in H. destruct p; [| discriminate].
    destruct w; reflexivity.
  - change (starts p (String c x) || occurs p x = true) in H.
    change (starts p (String c x +:+ w) || occurs p (x +:+ w) = true).
    apply orb_true_iff in H as [H | H].
    + now rewrite (starts_app_r _ _ w H).
    + rewrite (IH H). apply orb_true_r.
Qed.

Lemma trimEnd_is_head (s : string) : exists w, s = trimEnd s +:+ w.
Proof.
  induction s as [|c s (w & IH)]; [now exists "" |]. cbn [trimEnd].
  destruct (trimEnd s) as [|d t] eqn:E.
  - destruct (is_ws c).
    + now exists (String c s).
    + exists w. cbn. now rewrite IH at 1.
  - exists w. cbn. now rewrite IH at 1.
Qed.

Lemma occurs_trimStart (p s : string) :
  occurs p (trimStart s) = true -> occurs p s = true.
Proof.
  induction s as [|c s IH]; [auto |]. cbn [trimStart].
  destruct (is_ws c); [| auto]. intros H. apply occurs_cons. now apply IH.
Qed.

(** What occurs in the trimmed string occurs in the string. *)
Lemma occurs_trim (p s : string) : occurs p (trim s) = true -> occurs p s = true.
Proof.
  unfold trim. intros H. apply occurs_trimStart.
  destruct (trimEnd_is_head (trimStart s)) as (w & ->).
  now apply occurs_app_r.
Qed.

(** X1: the parser of the [swarmToken] collector returns [null] or, for
    exit code 0 only, the trimmed output as a string; a token it returns
    has no white space at either end and does not contain the text
    [Error response]. *)
Theorem swarmToken_parser_token (stdout : string) (code : option Z) :
  swarmToken_parser stdout code = JNull
  \/ (code = Some 0%Z
      /\ swarmToken_parser stdout code = JString (units (trim stdout))
      /\ trim (trim stdout) = trim stdout
      /\ occurs "Error response" (trim stdout) = false).
Proof.
  unfold swarmToken_parser.
  destruct (is_zero code) eqn:Z0; [| now left].
  destruct (occurs "Error response" stdout) eqn:O; [now left |].
  right. cbn [negb andb]. repeat split.
  - destruct code as [[|q|q]|]; try discriminate. reflexivity.
  - apply trim_idem.
  - destruct (occurs "Error response" (trim stdout)) eqn:T; [| reflexivity].
    apply occurs_trim in T. congruence.
Qed.

(** ** More on [seperateCollectors] *)

Lemma seperateCollectors_nothing (combined : string) :
  occurs prefix combined = false -> seperateCollectors combined = Return [].
Proof.
  intros H. unfold seperateCollectors.
  rewrite (split_none prefix combined); [reflexivity | discriminate |].
  now apply nomatch_occurs.
Qed.

Lemma seperateCollectors_preamble (pre rest : string) :
  occurs prefix pre = false ->
  seperateCollectors (pre +:+ prefix +:+ rest) =
  seperateCollectors (prefix +:+ rest).
Proof.
  intros H. unfold seperateCollectors.
  rewrite (split_first prefix pre rest);
    [| discriminate | apply nomatch_free; [exact H | vm_compute; reflexivity]].
  change (prefix +:+ rest) with ("" +:+ prefix +:+ rest).
  rewrite (split_first prefix "" rest); [reflexivity | discriminate | exact I].
Qed.

(** X2: [seperateCollectors] discards what precedes the first start
    sentinel: a combined output without start sentinel (the empty output
    included) decodes to no frame at all, and a text without start sentinel
    put in front of a frame does not change the decoded frames. *)
Theorem seperateCollectors_skips_preamble (pre rest : string) :
  occurs prefix pre = false ->
  seperateCollectors pre = Return []
  /\ seperateCollectors (pre +:+ prefix +:+ rest) =
     seperateCollectors (prefix +:+ rest).
Proof.
  intros H. split.
  - now apply seperateCollectors_nothing.
  - now apply seperateCollectors_preamble.
Qed.

Lemma seperateCollectors_skips_preamble_witness :
  seperateCollectors ("Welcome to Ubuntu" +:+ nl) = Return []
  /\ seperateCollectors
       (("Welcome to Ubuntu" +:+ nl) +:+ prefix +:+ wireChunk "swarm" "{}" 0) =
     seperateCollectors (prefix +:+ wireChunk "swarm" "{}" 0).
Proof.
  apply (seperateCollectors_skips_preamble ("Welcome to Ubuntu" +:+ nl)
           (wireChunk "swarm" "{}" 0)).
  reflexivity.
Defined.

Lemma mapC_Forall2 {A B} (f : A -> Completion B) (l : list A) (r : list B) :
  mapC f l = Return r -> Forall2 (fun a b => f a = Return b) l r.
Proof.
  revert r. induction l as [|a l IH]; intros r H; cbn [mapC] in H.
  - injection H as <-. constructor.
  - destruct (f a) as [b|] eqn:Ea; [| discriminate]. cbn [bindC] in H.
    destruct (mapC f l) as [bs|]; [| discriminate]. cbn [bindC] in H.
    injection H as <-. constructor; [exact Ea | now apply IH].
Qed.

Lemma decodeCollector_trimmed (chunk : string) (f : ProbeFrame) :
  decodeCollector chunk = Return f ->
  trim (name f) = name f /\ trim (output f) = output f.
Proof.
  unfold decodeCollector.
  destruct (item (split suffix chunk) 0) as [x0|]; [| discriminate].
  destruct (item (split suffix chunk) 1) as [x1|]; [| discriminate].
  cbn [bindC].
  destruct (item (split codeSeperator x1) 0) as [x2|]; [| discriminate].
  destruct (item (split codeSeperator chunk) 1) as [x3|]; [| discriminate].
  cbn [bindC]. intros [= <-]. cbn [name output]. split; apply trim_idem.
Qed.

(** X3: when [seperateCollectors] returns, it returns exactly one frame
    per start sentinel of the combined output, and the name and the output
    of every frame are trimmed: neither begins or ends with white space. *)
Theorem seperateCollectors_frames (combined : string) (frames : list ProbeFrame) :
  seperateCollectors combined = Return frames ->
  S (length frames) = length (split prefix combined)
  /\ Forall (fun f => trim (name f) = name f /\ trim (output f) = output f) frames.
Proof.
  unfold seperateCollectors. intros H. apply mapC_Forall2 in H.
  split.
  - apply Forall2_length in H. rewrite <- H.
    unfold split, prefix. cbn [tail length]. reflexivity.
  - clear -H. induction H as [|c f l r Hc _ IH]; constructor; [| exact IH].
    now apply (decodeCollector_trimmed c).
Qed.

Lemma seperateCollectors_frames_witness :
  S (length [ {| name := "swarm"; output := "{}"; code := Some 0%Z |};
              {| name := "images"; output := "[]"; code := None |} ])
    = length (split prefix no_integer)
  /\ Forall (fun f => trim (name f) = name f /\ trim (output f) = output f)
       [ {| name := "swarm"; output := "{}"; code := Some 0%Z |};
         {| name := "images"; output := "[]"; code := None |} ].
Proof.
  apply (seperateCollectors_frames no_integer). reflexivity.
Defined.



(** X5: the exit status of a probe's command never reaches its frame:
    whatever the commands exit with, when their outputs contain no sentinel
    the script writes a text that decodes to frames whose code is [0], the
    status of the [echo] run just before [echo $?]. *)
Theorem script_frames_have_code_zero (exec : string -> CmdResult) :
  Forall (fun kc => out_ok (cmd_out (exec (command (snd kc)))) = true) _collectors ->
  exists o frames,
    runScript exec generateScript = Some o
    /\ seperateCollectors o = Return frames
    /\ length frames = length _collectors
    /\ Forall (fun f => code f = Some 0%Z) frames.
Proof.
  intros H. destruct (seperateCollectors_script exec H) as (o & Hr & Hd).
  exists o, (List.map decoded (written exec)).
  repeat split; try assumption; try reflexivity.
  unfold written, _collectors. repeat constructor.
Qed.

Lemma script_frames_have_code_zero_witness :
  exists o frames,
    runScript exec_fail generateScript = Some o
    /\ seperateCollectors o = Return frames
    /\ length frames = length _collectors
    /\ Forall (fun f => code f = Some 0%Z) frames.
Proof.
  apply (script_frames_have_code_zero exec_fail). repeat constructor.
Defined.

(** ** More on [createHostResult] and [getServerInfo] *)

Lemma registered_parsed (f : ProbeFrame) :
  registered (name f) = true ->
  parseCollectorOutput (name f) (output f) (code f) = Return (parsed f).
Proof.
  unfold registered, parseCollectorOutput, parsed.
  destruct (lookup_collector (name f) _collectors); [reflexivity | discriminate].
Qed.

(** The assignments leave [_host] alone. *)
Lemma assign_keeps_host (l : list ProbeFrame) :
  forall acc r,
    fold_left assignProbe l acc = Return r ->
    exists r0, acc = Return r0 /\ _host r = _host r0.
Proof.
  induction l as [|f l IH]; intros acc r H; cbn [fold_left] in H.
  - exists r. auto.
  - destruct (IH _ _ H) as (r1 & E1 & H1).
    destruct acc as [r0|e]; [| discriminate].
    exists r0. split; [reflexivity |].
    unfold assignProbe in E1. cbn [bindC] in E1.
    destruct (parseCollectorOutput (name f) (output f) (code f));
      [| discriminate].
    cbn [bindC] in E1. injection E1 as <-. exact H1.
Qed.

Lemma createHostResult_host (frames : list ProbeFrame) (h : string) (r : HostResult) :
  createHostResult frames h = Return r -> _host r = h.
Proof.
  intros H. destruct (assign_keeps_host _ _ _ H) as (r0 & [= <-] & E). exact E.
Qed.

(** X6: the frame that comes last decides: when all frame names are
    registered, the entry of the host result under the name of the last
    frame is what the parser makes of that last frame, whatever earlier
    frames of the same name held. *)
Theorem createHostResult_last_frame_wins
    (frames : list ProbeFrame) (f : ProbeFrame) (h : string) :
  Forall (fun g => registered (name g) = true) (frames ++ [f]) ->
  exists r,
    createHostResult (frames ++ [f]) h = Return r
    /\ probes r !! name f = Some (parsed f).
Proof.
  intros H. apply Forall_app in H as [Hfs Hf]. apply Forall_inv in Hf.
  destruct (assign_registered _ Hfs {| _host := h; probes := ∅ |})
    as (r0 & E0 & _).
  unfold createHostResult. rewrite fold_left_app, E0. cbn [fold_left].
  unfold assignProbe. cbn [bindC]. rewrite (registered_parsed _ Hf).
  cbn [bindC]. eexists. split; [reflexivity |]. cbn [probes].
  apply lookup_insert_eq.
Qed.

Lemma createHostResult_last_frame_wins_witness :
  exists r,
    createHostResult
      ([ {| name := "images"; output := ""; code := Some 0%Z |} ]
       ++ [ {| name := "images"; output := "{}"; code := Some 0%Z |} ]) "web1"
    = Return r
    /\ probes r !! "images" = Some (JArray [JObject []]).
Proof.
  assert (H : Forall (fun g => registered (name g) = true)
                ([ {| name := "images"; output := ""; code := Some 0%Z |} ]
                 ++ [ {| name := "images"; output := "{}"; code := Some 0%Z |} ]))
    by repeat constructor.
  exact (createHostResult_last_frame_wins
           [ {| name := "images"; output := ""; code := Some 0%Z |} ]
           {| name := "images"; output := "{}"; code := Some 0%Z |} "web1" H).
Defined.

Section Probing.

Variable runSSHCommand : Server -> string -> Settled SSHResult.
Variable Vars : Type.
Variable vars : Vars.


(** X7: [getServerInfo] never rejects, and it logs exactly when it gives
    up on the host: either it logs nothing and resolves with a host result
    whose [_host] is the host of the server, or it logs one error together
    with the server and resolves with [undefined]. *)
Theorem getServerInfo_outcome (server : Server) :
  (exists hr,
     getServerInfo runSSHCommand vars server =
       {| logged := []; settled := Resolved (Some hr) |}
     /\ _host hr = host server)
  \/ (exists err,
        getServerInfo runSSHCommand vars server =
          {| logged := [(err, server)]; settled := Resolved None |}).
Proof.
  unfold getServerInfo.
  destruct (runSSHCommand server generateScript) as [result | err];
    [| right; eauto].
  destruct (seperateCollectors (ssh_output result)) as [frames | e];
    cbn [bindC]; [| right; eauto].
  destruct (createHostResult frames (host server)) as [hr | e] eqn:E;
    [| right; eauto].
  left. exists hr. split; [reflexivity |]. exact (createHostResult_host _ _ _ E).
Qed.

End Probing.

(** ** Frames with distinct names *)

Lemma same_name_same_frame (l : list ProbeFrame) (f g : ProbeFrame) :
  NoDup (List.map name l) -> In f l -> In g l -> name f = name g -> f = g.
Proof.
  induction l as [|x l IH]; intros Hn Hf Hg E; [destruct Hf |].
  cbn [List.map] in Hn. apply NoDup_cons in Hn as [Hx Hn].
  assert (Hin : forall y, In y l -> name y ∈ List.map name l).
  { intros y Hy. apply list_elem_of_In, in_map, Hy. }
  destruct Hf as [<- | Hf], Hg as [<- | Hg]; auto.
  - exfalso. apply Hx. rewrite E. now apply Hin.
  - exfalso. apply Hx. rewrite <- E. now apply Hin.
Qed.

Lemma createHostResult_distinct (frames : list ProbeFrame) (h : string) :
  Forall (fun f => registered (name f) = true) frames ->
  NoDup (List.map name frames) ->
  exists r,
    createHostResult frames h = Return r
    /\ _host r = h
    /\ dom (probes r) = list_to_set (List.map name frames)
    /\ (forall f, In f frames -> probes r !! name f = Some (parsed f)).
Proof.
  intros Hreg Hnd.
  destruct (assign_registered _ Hreg {| _host := h; probes := ∅ |})
    as (r & Er & Hh & Hd & Hl).
  cbn [_host probes] in *. rewrite dom_empty_L, (left_id_L ∅ (∪)) in Hd.
  exists r. repeat split; try assumption.
  intros f Hf.
  assert (Hin : name f ∈ dom (probes r)).
  { rewrite Hd. apply elem_of_list_to_set, list_elem_of_In, in_map, Hf. }
  apply elem_of_dom in Hin as (v & Hv). rewrite Hv. f_equal.
  destruct (Hl _ _ Hv) as [H0 | (g & Hg & Hgn & Hp)].
  - rewrite lookup_empty in H0. discriminate.
  - rewrite (same_name_same_frame _ _ _ Hnd Hg Hf Hgn) in Hp.
    rewrite registered_parsed in Hp by exact (proj1 (List.Forall_forall _ _) Hreg f Hf).
    now injection Hp as <-.
Qed.

(** X8: the order of the frames does not matter when their names are
    registered and pairwise distinct: [createHostResult] builds the same
    host result from every rearrangement of such a frame list. *)
Theorem createHostResult_order_irrelevant
    (frames frames' : list ProbeFrame) (h : string) :
  Forall (fun f => registered (name f) = true) frames ->
  NoDup (List.map name frames) ->
  Permutation frames frames' ->
  createHostResult frames' h = createHostResult frames h.
Proof.
  intros Hreg Hnd Hp.
  assert (Hreg' : Forall (fun f => registered (name f) = true) frames')
    by (now rewrite <- Hp).
  assert (Hnd' : NoDup (List.map name frames'))
    by (now rewrite <- Hp).
  destruct (createHostResult_distinct _ h Hreg Hnd) as (r & -> & Hh & Hd & Hl).
  destruct (createHostResult_distinct _ h Hreg' Hnd') as (r' & -> & Hh' & Hd' & Hl').
  f_equal. destruct r as [h1 m], r' as [h2 m']. cbn [_host probes] in *.
  subst h1 h2. f_equal. apply map_eq. intros n.
  destruct (decide (n ∈ List.map name frames)) as [Hn | Hn].
  - apply list_elem_of_In, in_map_iff in Hn as (f & <- & Hf).
    rewrite (Hl f Hf). apply Hl'.
    apply list_elem_of_In. rewrite <- Hp. now apply list_elem_of_In.
  - assert (N1 : m !! n = None).
    { apply not_elem_of_dom. rewrite Hd. now rewrite elem_of_list_to_set. }
    assert (N2 : m' !! n = None).
    { apply not_elem_of_dom. rewrite Hd', elem_of_list_to_set.
      now rewrite <- Hp. }
    now rewrite N1, N2.
Qed.

Lemma createHostResult_order_irrelevant_witness :
  createHostResult
    [ {| name := "images"; output := "{}"; code := Some 0%Z |};
      {| name := "swarm"; output := "{}"; code := Some 1%Z |} ] "web1" =
  createHostResult
    [ {| name := "swarm"; output := "{}"; code := Some 1%Z |};
      {| name := "images"; output := "{}"; code := Some 0%Z |} ] "web1".
Proof.
  apply (createHostResult_order_irrelevant
           [ {| name := "swarm"; output := "{}"; code := Some 1%Z |};
             {| name := "images"; output := "{}"; code := Some 0%Z |} ]).
  - repeat constructor.
  - apply (bool_decide_unpack _). vm_compute. exact I.
  - apply perm_swap.
Defined.

(** ** From the script to the fleet result *)

Lemma registered_collectors :
  Forall (fun kc => registered (fst kc) = true) _collectors
  /\ NoDup (List.map fst _collectors).
Proof.
  split; [repeat constructor |].
  apply (bool_decide_unpack _). vm_compute. exact I.
Qed.

Section EndToEnd.

Variable exec : string -> CmdResult.
Variable Vars : Type.
Variable vars : Vars.

(** X9: a host that runs the script, and whose commands write no
    sentinel, is probed in full: [getServerInfo] logs nothing and resolves
    with a host result that carries the host of the server and, for each
    registered probe and no other name, what the probe's parser makes of
    the trimmed output of its command and the code [0]. *)
Theorem getServerInfo_probes_in_full (server : Server) :
  Forall (fun kc => out_ok (cmd_out (exec (command (snd kc)))) = true) _collectors ->
  exists hr,
    getServerInfo (ssh_runs exec) vars server =
      {| logged := []; settled := Resolved (Some hr) |}
    /\ _host hr = host server
    /\ dom (probes hr) = list_to_set (List.map fst _collectors)
    /\ (forall kc,
          In kc _collectors ->
          probes hr !! fst kc =
          Some (parser (snd kc) (trim (cmd_out (exec (command (snd kc)))))
                  (Some 0%Z))).
Proof.
  intros H. destruct registered_collectors as (Hreg & Hnd).
  assert (Hreg' : Forall (fun f => registered (name f) = true)
                    (List.map decoded (written exec))).
  { unfold written, _collectors. repeat constructor. }
  assert (Hnames : List.map name (List.map decoded (written exec))
                   = List.map fst _collectors) by reflexivity.
  destruct (createHostResult_distinct _ (host server) Hreg')
    as (hr & E & Hh & Hd & Hl); [now rewrite Hnames |].
  exists hr. split; [| split; [exact Hh | split; [now rewrite Hd, Hnames |]]].
  - unfold getServerInfo, ssh_runs. rewrite runScript_generateScript.
    cbn [ssh_output]. rewrite (seperateCollectors_wire _ (written_ok _ H)).
    cbn [bindC]. now rewrite E.
  - intros kc Hkc.
    pose (f := decoded (fst kc, cmd_out (exec (command (snd kc))), 0)).
    assert (Hf : In f (List.map decoded (written exec))).
    { unfold written. rewrite List.map_map.
      apply in_map_iff. exists kc. split; [reflexivity | exact Hkc]. }
    transitivity (Some (parsed f)); [exact (Hl f Hf) |].
    unfold parsed, f, decoded. cbn [name output code fst snd].
    assert (Hlk : lookup_collector (fst kc) _collectors = Some (snd kc)).
    { clear -Hkc. unfold _collectors in *. cbn [In] in Hkc.
      destruct Hkc as [<- | [<- | [<- | [<- | [<- | []]]]]]; reflexivity. }
    now rewrite Hlk.
Qed.

End EndToEnd.

Lemma getServerInfo_probes_in_full_witness :
  exists hr,
    getServerInfo (ssh_runs exec_line) tt web1 =
      {| logged := []; settled := Resolved (Some hr) |}
    /\ _host hr = host web1
    /\ dom (probes hr) = list_to_set (List.map fst _collectors)
    /\ (forall kc,
          In kc _collectors ->
          probes hr !! fst kc =
          Some (parser (snd kc) (trim (cmd_out (exec_line (command (snd kc)))))
                  (Some 0%Z))).
Proof.
  apply (getServerInfo_probes_in_full exec_line unit tt web1).
  repeat constructor.
Defined.


Section FleetOutcome.

Variable runSSHCommand : Server -> string -> Settled SSHResult.
Variable Vars : Type.
Variable vars : Vars.

Lemma serverInfo_undefined (servers : list Server) (server : Server) :
  In server servers ->
  settled (getServerInfo runSSHCommand vars server) = Resolved None ->
  serverInfo runSSHCommand vars servers = Rejected TypeError.
Proof.
  intros Hin Hs. unfold serverInfo.
  destruct (map_in_order_resolved
              (fun server => settled (getServerInfo runSSHCommand vars server))
              servers (getServerInfo_resolves runSSHCommand Vars vars))
    as (rs & -> & F).
  assert (Hn : In None rs).
  { clear -Hin Hs F. induction F as [|s r servers rs Hr _ IH]; [destruct Hin |].
    destruct Hin as [-> | Hin].
    - rewrite Hs in Hr. injection Hr as <-. now left.
    - right. now apply IH. }
  now rewrite (collectResults_undefined _ Hn).
Qed.


(** X11: a malformed answer of one host costs the whole fleet: when the
    transport resolves for some server with an output in which a chunk
    lacks the stop sentinel or the code separator, or in which a frame bears
    a name that is not registered, [serverInfo] rejects with [TypeError]. *)
Theorem serverInfo_rejects_on_malformed_output
    (servers : list Server) (server : Server) (result : SSHResult) :
  In server servers ->
  runSSHCommand server generateScript = Resolved result ->
  Exists (fun c => framed c = false) (chunks (ssh_output result))
  \/ (exists frames,
        seperateCollectors (ssh_output result) = Return frames
        /\ Exists (fun f => registered (name f) = false) frames) ->
  serverInfo runSSHCommand vars servers = Rejected TypeError.
Proof.
  intros Hin Hr Hbad. apply (serverInfo_undefined servers server Hin).
  unfold getServerInfo. rewrite Hr.
  destruct Hbad as [Hc | (frames & Hd & Hf)].
  - unfold seperateCollectors. fold (chunks (ssh_output result)).
    now rewrite (mapC_decode_some _ Hc).
  - rewrite Hd. cbn [bindC]. unfold createHostResult.
    now rewrite (assign_unregistered _ Hf).
Qed.

End FleetOutcome.


Lemma serverInfo_rejects_on_malformed_output_witness :
  serverInfo garbled tt [web1; web2] = Rejected TypeError.
Proof.
  apply (serverInfo_rejects_on_malformed_output garbled unit tt [web1; web2] web2
           {| ssh_output := cut_short; ssh_code := 0 |}).
  - right. left. reflexivity.
  - reflexivity.
  - left. vm_compute. apply Exists_cons_tl, Exists_cons_hd. reflexivity.
Defined.

(** ** The schedules of [serverInfo] *)

Section FleetSchedule.

Variable runSSHCommand : Server -> string -> Settled SSHResult.
Variable Vars : Type.
Variable vars : Vars.


End FleetSchedule.


(** ** [JSON.parse] of a text that opens with a bracket *)

Lemma push_value_bottom (v : JSON) (stack' : list container) (acc : list JSON)
    (st' : pstate) :
  push_value v (stack' ++ [CArr acc]) = Some st' -> bottom_array st'.
Proof.
  destruct stack' as [|[a | a [k|]] rest]; cbn; intros [= <-]; cbn.
  - now exists [], (v :: acc).
  - now exists (CArr (v :: a) :: rest), acc.
  - now exists (CObj ((k, v) :: a) None :: rest), acc.
Qed.

Lemma open_value_bottom (t : token) (stack' : list container) (acc : list JSON)
    (st' : pstate) :
  open_value t (stack' ++ [CArr acc]) = Some st' -> bottom_array st'.
Proof.
  destruct t; cbn [open_value]; try discriminate;
    try apply push_value_bottom; intros [= <-]; cbn.
  - now exists (CArr [] :: stack'), acc.
  - now exists (CObj [] None :: stack'), acc.
Qed.

Lemma close_array_bottom (stack' : list container) (acc : list JSON)
    (st' : pstate) :
  close_array (stack' ++ [CArr acc]) = Some st' -> bottom_array st'.
Proof.
  destruct stack' as [|[a | a k] rest]; cbn; try discriminate.
  - intros [= <-]. exact I.
  - apply push_value_bottom.
Qed.

Lemma close_object_bottom (stack' : list container) (acc : list JSON)
    (st' : pstate) :
  close_object (stack' ++ [CArr acc]) = Some st' -> bottom_array st'.
Proof.
  destruct stack' as [|[a | a [k|]] rest]; cbn; try discriminate.
  apply push_value_bottom.
Qed.

Lemma set_key_bottom (k : jsstr) (stack' : list container) (acc : list JSON)
    (st' : pstate) :
  set_key k (stack' ++ [CArr acc]) = Some st' -> bottom_array st'.
Proof.
  destruct stack' as [|[a | a [k'|]] rest]; cbn; try discriminate.
  intros [= <-]. cbn. now exists (CObj a (Some k) :: rest), acc.
Qed.

Lemma parse_step_bottom (st : pstate) (t : token) (st' : pstate) :
  bottom_array st -> parse_step st t = Some st' -> bottom_array st'.
Proof.
  destruct st as [e stack].
  destruct e; cbn [bottom_array parse_step]; try discriminate;
    intros (stack' & acc & ->).
  - apply open_value_bottom.
  - destruct t; try apply open_value_bottom. apply close_array_bottom.
  - destruct t; try discriminate;
      [apply close_object_bottom | apply set_key_bottom].
  - destruct t; try discriminate. apply set_key_bottom.
  - destruct t; try discriminate. intros [= <-]. cbn. eauto.
  - destruct t; try discriminate.
    + apply close_array_bottom.
    + apply close_object_bottom.
    + destruct (stack' ++ [CArr acc]) as [|[a | a [k|]] rest] eqn:E;
        try discriminate; intros [= <-]; cbn; rewrite <- E; eauto.
Qed.

Lemma parse_run_bottom (ts : list token) :
  forall st st',
    bottom_array st -> parse_run st ts = Some st' -> bottom_array st'.
Proof.
  induction ts as [|t ts IH]; intros st st' Hb H; cbn [parse_run] in H.
  - now injection H as <-.
  - destruct (parse_step st t) as [st1|] eqn:E; [| discriminate].
    exact (IH _ _ (parse_step_bottom _ _ _ Hb E) H).
Qed.

(** A text that opens with a bracket parses to an array or not at all. *)
Lemma JSON_parse_opening_bracket (x : string) (v : JSON) :
  JSON_parse ("[" +:+ x) = Some v -> instanceof_Array v = true.
Proof.
  unfold JSON_parse, tokenize.
  change ("[" +:+ x) with (String "["%char x). cbn [lex_run].
  change (lex_step MNormal "[") with (Some ([TLBrack], MNormal)). cbv iota beta.
  destruct (lex_run MNormal x) as [[t1 m1]|]; [| discriminate].
  destruct (lex_finish m1) as [tf|]; [| discriminate].
  cbn [app parse_run parse_step open_value].
  destruct (parse_run (EValueOrEnd, [CArr []]) ((t1 ++ tf))) as [[e stack]|] eqn:P;
    [| discriminate].
  destruct e; try discriminate. destruct stack; [| discriminate].
  intros [= <-].
  assert (B : bottom_array (EValueOrEnd, [CArr []])) by (now exists [], []).
  pose proof (parse_run_bottom _ _ _ B P) as B'. cbn in B'.
  destruct v0; (contradiction || reflexivity).
Qed.

(** X13: the JSON-lines parser returns [null] or an array, never a bare
    value: with exit code 0 its result is what [JSON.parse] reads from the
    lines joined by commas and put between brackets, which is always an
    array, so that the branch wrapping a non-array result is never taken;
    with any other code, or when [JSON.parse] throws, the result is
    [null]. *)
Theorem parseJSONArray_null_or_array (stdout : string) (code : option Z) :
  parseJSONArray stdout code =
    match (if is_zero code
           then JSON_parse ("[" +:+ join "," (split nl stdout) +:+ "]")
           else None)
    with
    | Some result => result
    | None => JNull
    end
  /\ (parseJSONArray stdout code = JNull
      \/ exists items, parseJSONArray stdout code = JArray items).
Proof.
  unfold parseJSONArray. destruct (is_zero code); [| split; [reflexivity | now left]].
  destruct (JSON_parse ("[" +:+ join "," (split nl stdout) +:+ "]"))
    as [v|] eqn:E; [| split; [reflexivity | now left]].
  pose proof (JSON_parse_opening_bracket _ _ E) as A. rewrite A. cbn [negb].
  split; [reflexivity |]. right. destruct v; try discriminate. eauto.
Qed.

(** ** One JSON value per line *)

Lemma lex_step_comma (m : lexmode) (ts : list token) :
  lex_finish m = Some ts ->
  lex_step m "," = Some (ts ++ [TComma], MNormal).
Proof.
  destruct m as [| | | |st lit|]; try discriminate.
  - intros [= <-]. reflexivity.
  - cbn [lex_finish]. destruct st; cbn [num_accepting]; try discriminate;
      intros [= <-]; reflexivity.
Qed.

Lemma tokenize_comma (a b : string) (ta tb : list token) :
  tokenize a = Some ta -> tokenize b = Some tb ->
  tokenize (a +:+ "," +:+ b) = Some (ta ++ TComma :: tb).
Proof.
  unfold tokenize. intros Ha Hb.
  destruct (lex_run MNormal a) as [[t1 m1]|] eqn:E1; [| discriminate].
  destruct (lex_finish m1) as [tf|] eqn:F1; [| discriminate].
  injection Ha as <-.
  destruct (lex_run MNormal b) as [[t2 m2]|] eqn:E2; [| discriminate].
  destruct (lex_finish m2) as [tf2|] eqn:F2; [| discriminate].
  injection Hb as <-.
  rewrite lex_run_app, E1.
  change ("," +:+ b) with (String ","%char b). cbn [lex_run].
  rewrite (lex_step_comma _ _ F1), E2, F2.
  f_equal. rewrite <- !app_assoc. reflexivity.
Qed.

Lemma join_cons2 (sep x y : string) (l : list string) :
  join sep (x :: y :: l) = x +:+ sep +:+ join sep (y :: l).
Proof. reflexivity. Qed.

Lemma tokenize_join (lines : list string) (tss : list (list token)) :
  Forall2 (fun l ts => tokenize l = Some ts) lines tss ->
  lines <> [] ->
  tokenize (join "," lines) = Some (sep_tokens tss).
Proof.
  induction 1 as [|l ts lines tss Hl F IH]; intros Hne; [congruence |].
  destruct F as [|l' ts' lines tss Hl' F]; [exact Hl |].
  rewrite join_cons2. cbn [sep_tokens].
  apply tokenize_comma; [exact Hl |]. apply IH. discriminate.
Qed.

(** Joining lines that hold no line break and splitting again gives the
    lines back. *)
Lemma split_join_lines (lines : list string) :
  Forall (fun l => has_char "010" l = false) lines ->
  lines <> [] ->
  split nl (join nl lines) = lines.
Proof.
  induction 1 as [|l lines Hl F IH]; intros Hne; [congruence |].
  destruct F as [|l' lines Hl' F].
  - now apply split_single_line.
  - rewrite join_cons2, split_first.
    + f_equal. apply IH. discriminate.
    + discriminate.
    + now apply nomatch_char.
Qed.

Lemma push_value_within (acc : list JSON) (v : JSON) (stack : list container)
    (st' : pstate) :
  push_value v stack = Some st' ->
  push_value v (stack ++ [CArr acc]) = Some (within_array acc st').
Proof.
  destruct stack as [|[a | a [k|]] stack]; cbn; intros [= <-]; reflexivity.
Qed.

Lemma open_value_within (acc : list JSON) (t : token) (stack : list container)
    (st' : pstate) :
  open_value t stack = Some st' ->
  open_value t (stack ++ [CArr acc]) = Some (within_array acc st').
Proof.
  destruct t; cbn [open_value]; try discriminate;
    try apply push_value_within; intros [= <-]; reflexivity.
Qed.

Lemma parse_step_within (acc : list JSON) (st : pstate) (t : token) (st' : pstate) :
  parse_step st t = Some st' ->
  parse_step (within_array acc st) t = Some (within_array acc st').
Proof.
  destruct st as [e stack].
  destruct e; cbn [parse_step within_array]; try discriminate.
  - apply open_value_within.
  - destruct t; try apply open_value_within.
    destruct stack as [|[a | a k] stack]; cbn; try discriminate.
    apply push_value_within.
  - destruct t; try discriminate.
    + destruct stack as [|[a | a [k|]] stack]; cbn; try discriminate.
      apply push_value_within.
    + destruct stack as [|[a | a [k|]] stack]; cbn; try discriminate.
      intros [= <-]. reflexivity.
  - destruct t; try discriminate.
    destruct stack as [|[a | a [k|]] stack]; cbn; try discriminate.
    intros [= <-]. reflexivity.
  - destruct t; try discriminate. intros [= <-]. reflexivity.
  - destruct t; try discriminate;
      destruct stack as [|[a | a [k|]] stack]; cbn; try discriminate;
      try apply push_value_within; intros [= <-]; reflexivity.
Qed.

Lemma parse_run_within (acc : list JSON) (ts : list token) :
  forall st st',
    parse_run st ts = Some st' ->
    parse_run (within_array acc st) ts = Some (within_array acc st').
Proof.
  induction ts as [|t ts IH]; intros st st' H; cbn [parse_run] in *.
  - now injection H as <-.
  - destruct (parse_step st t) as [st1|] eqn:E; [| discriminate].
    rewrite (parse_step_within _ _ _ _ E). now apply IH.
Qed.

(** The values of an array, read one after the other. *)
Lemma parse_run_elements (tss : list (list token)) (vs : list JSON) :
  Forall2 (fun ts v => parse_run (EValue, []) ts = Some (EDone v, [])) tss vs ->
  tss <> [] ->
  forall acc,
    parse_run (EValue, [CArr acc]) (sep_tokens tss) =
    Some (ECommaOrEnd, [CArr (rev vs ++ acc)]).
Proof.
  induction 1 as [|ts v tss vs Hv F IH]; intros Hne acc; [congruence |].
  destruct F as [|ts' v' tss vs Hv' F].
  - cbn [sep_tokens rev app]. exact (parse_run_within acc _ _ _ Hv).
  - change (sep_tokens (ts :: ts' :: tss))
      with (ts ++ TComma :: sep_tokens (ts' :: tss)).
    pose proof (parse_run_within acc _ _ _ Hv) as W.
    cbn [within_array app] in W. rewrite parse_run_app, W.
    cbn [parse_run parse_step].
    rewrite IH by discriminate.
    change (rev (v :: v' :: vs)) with (rev (v' :: vs) ++ [v]).
    now rewrite <- app_assoc.
Qed.

Lemma sep_tokens_head (tss : list (list token)) (vs : list JSON) :
  Forall2 (fun ts v => parse_run (EValue, []) ts = Some (EDone v, [])) tss vs ->
  tss <> [] ->
  exists t rest, sep_tokens tss = t :: rest /\ t <> TRBrack.
Proof.
  intros F Hne. destruct F as [|ts v tss vs Hv F]; [congruence |].
  destruct ts as [|t ts]; [discriminate |].
  exists t. destruct tss as [|ts' tss]; cbn [sep_tokens app]; eexists;
    (split; [reflexivity |]); intros ->; discriminate.
Qed.

Lemma parse_run_array (tss : list (list token)) (vs : list JSON) :
  Forall2 (fun ts v => parse_run (EValue, []) ts = Some (EDone v, [])) tss vs ->
  tss <> [] ->
  parse_run (EValue, []) (TLBrack :: sep_tokens tss ++ [TRBrack]) =
  Some (EDone (JArray vs), []).
Proof.
  intros F Hne.
  pose proof (parse_run_elements _ _ F Hne []) as E.
  destruct (sep_tokens_head _ _ F Hne) as (t & rest & Ht & Hn).
  cbn [parse_run parse_step open_value]. rewrite Ht in *.
  cbn [app parse_run] in *.
  replace (parse_step (EValueOrEnd, [CArr []]) t)
    with (parse_step (EValue, [CArr []]) t)
    by (destruct t; try reflexivity; congruence).
  destruct (parse_step (EValue, [CArr []]) t) as [st1|]; [| discriminate].
  rewrite parse_run_app, E. cbn. now rewrite app_nil_r, rev_involutive.
Qed.

(** X14: the JSON-lines parser reads one JSON value per line: for a
    non-empty list of lines, none of which holds a line break and each of
    which is a JSON text, the output made of these lines and exit code 0
    give the array of the values of the lines, in order. *)
Theorem parseJSONArray_lines (lines : list string) (vs : list JSON) :
  lines <> [] ->
  Forall2 (fun l v => has_char "010" l = false /\ JSON_parse l = Some v) lines vs ->
  parseJSONArray (join nl lines) (Some 0%Z) = JArray vs.
Proof.
  intros Hne F.
  assert (Hnl : Forall (fun l => has_char "010" l = false) lines).
  { clear Hne. induction F as [|l v lines vs (H & _) _ IH]; constructor; auto. }
  assert (Htok : exists tss,
    Forall2 (fun l ts => tokenize l = Some ts) lines tss
    /\ Forall2 (fun ts v => parse_run (EValue, []) ts = Some (EDone v, [])) tss vs).
  { clear Hne Hnl. induction F as [|l v lines vs (_ & H) _ (tss & T & P)].
    - exists []. split; constructor.
    - unfold JSON_parse in H.
      destruct (tokenize l) as [ts|] eqn:E; [| discriminate].
      destruct (parse_run (EValue, []) ts) as [[e stack]|] eqn:R; [| discriminate].
      destruct e; try discriminate. destruct stack; [| discriminate].
      injection H as ->. exists (ts :: tss). split; now constructor. }
  destruct Htok as (tss & T & P).
  assert (Hts : tss <> []).
  { intros ->. apply Forall2_length in T. destruct lines; [congruence | discriminate]. }
  unfold parseJSONArray. cbn [is_zero].
  rewrite (split_join_lines _ Hnl Hne).
  unfold JSON_parse.
  rewrite (tokenize_bracketed _ _ (tokenize_join _ _ T Hne)).
  now rewrite (parse_run_array _ _ P Hts).
Qed.

Lemma parseJSONArray_lines_witness :
  parseJSONArray
    (join nl ["{" +:+ dquote +:+ "ID" +:+ dquote +:+ ":1}"; "[2, 3]"; "null"])
    (Some 0%Z)
  = JArray [ JObject [(units "ID", JNumber "1")];
             JArray [JNumber "2"; JNumber "3"];
             JNull ].
Proof.
  apply (parseJSONArray_lines
           ["{" +:+ dquote +:+ "ID" +:+ dquote +:+ ":1}"; "[2, 3]"; "null"]
           [ JObject [(units "ID", JNumber "1")];
             JArray [JNumber "2"; JNumber "3"];
             JNull ]).
  - discriminate.
  - repeat constructor.
Defined.

(** ** An output that ends with a line break *)

Lemma split_from_line_end (s : string) :
  split_from nl 0 (s +:+ nl) =
  (fst (split_from nl 0 s), snd (split_from nl 0 s) ++ [""]).
Proof.
  induction s as [|d s IH]; [reflexivity |].
  change (String d s +:+ nl) with (String d (s +:+ nl)).
  cbn [split_from]. change (slen nl - 1) with 0. rewrite IH.
  replace (starts nl (String d (s +:+ nl))) with (starts nl (String d s))
    by (unfold nl; cbn [starts]; now destruct s).
  destruct (starts nl (String d s)); reflexivity.
Qed.

Lemma split_line_end (s : string) : split nl (s +:+ nl) = split nl s ++ [""].
Proof.
  unfold nl at 1 3. rewrite !split_unfold. fold nl.
  now rewrite split_from_line_end.
Qed.

Lemma join_empty_last (sep : string) (l : list string) :
  l <> [] -> join sep (l ++ [""]) = join sep l +:+ sep.
Proof.
  induction l as [|x l IH]; intros Hne; [congruence |].
  destruct l as [|y l].
  - cbn. now rewrite sapp_nil_r.
  - change ((x :: y :: l) ++ [""]) with (x :: y :: (l ++ [""])).
    rewrite !join_cons2.
    change (y :: l ++ [""]) with ((y :: l) ++ [""]).
    rewrite IH by discriminate. now rewrite !sapp_assoc.
Qed.

Lemma lex_step_no_comma (m : lexmode) (c : ascii) (ts : list token) (m' : lexmode) :
  no_comma_ahead m -> lex_step m c = Some (ts, m') -> no_comma_ahead m'.
Proof.
  assert (S0 : forall ts m', lex_start c = Some (ts, m') -> no_comma_ahead m').
  { intros ts0 m0. unfold lex_start.
    destruct (is_json_ws c); [now intros [= <- <-] |].
    destruct (is_digit19 c); [now intros [= <- <-] |].
    destruct c as [[] [] [] [] [] [] [] []]; try discriminate;
      intros [= <- <-]; cbn; tauto. }
  destruct m as [|acc|acc|acc k v|st lit|rest tok]; cbn [lex_step]; intros Hm.
  - apply S0.
  - destruct (Ascii.eqb c "034"); [now intros [= <- <-] |].
    destruct (Ascii.eqb c "\"); [now intros [= <- <-] |].
    destruct (N_of_ascii c <? 32)%N; [discriminate | now intros [= <- <-]].
  - destruct c as [[] [] [] [] [] [] [] []]; try discriminate;
      now intros [= <- <-].
  - destruct (hex_val c); [| discriminate].
    destruct (k =? 3)%nat; now intros [= <- <-].
  - destruct (num_next st c); [now intros [= <- <-] |].
    destruct (num_accepting st); [| discriminate].
    destruct (lex_start c) as [[ts0 m0]|] eqn:E; [| discriminate].
    intros [= <- <-]. exact (S0 _ _ eq_refl).
  - destruct rest as [|c' rest']; [discriminate |].
    destruct (Ascii.eqb c c'); [| discriminate].
    destruct rest' as [|c'' rest'']; [now intros [= <- <-] |].
    intros [= <- <-]. cbn in *.
    repeat (destruct Hm as [Hm | Hm];
            [first [discriminate Hm | inversion Hm; subst; tauto] |]).
    destruct Hm.
Qed.

Lemma lex_run_no_comma (s : string) :
  forall m ts m',
    no_comma_ahead m -> lex_run m s = Some (ts, m') -> no_comma_ahead m'.
Proof.
  induction s as [|c s IH]; intros m ts m' Hm H; cbn [lex_run] in H.
  - now injection H as <- <-.
  - destruct (lex_step m c) as [[t1 m1]|] eqn:E; [| discriminate].
    destruct (lex_run m1 s) as [[t2 m2]|] eqn:R; [| discriminate].
    injection H as <- <-. exact (IH _ _ _ (lex_step_no_comma _ _ _ _ Hm E) R).
Qed.

Lemma lex_comma_bracket (m : lexmode) (ts : list token) (m' : lexmode)
    (tf : list token) :
  no_comma_ahead m ->
  lex_run m ",]" = Some (ts, m') ->
  lex_finish m' = Some tf ->
  exists pre, ts ++ tf = pre ++ [TComma; TRBrack].
Proof.
  destruct m as [|acc|acc|acc k v|st lit|rest tok]; intros Hm.
  - cbn. intros [= <- <-] [= <-]. now exists [].
  - cbn. intros [= <- <-]. discriminate.
  - discriminate.
  - discriminate.
  - destruct st; cbn; try discriminate;
      intros [= <- <-] [= <-]; now exists [TNum lit].
  - cbn in Hm.
    repeat (destruct Hm as [Hm | Hm]; [subst rest; discriminate |]).
    destruct Hm.
Qed.

Lemma parse_run_comma_bracket (pre : list token) (st : pstate) :
  parse_run st (pre ++ [TComma; TRBrack]) = None.
Proof.
  rewrite parse_run_app. destruct (parse_run st pre) as [[e stack]|]; [| reflexivity].
  destruct e; cbn; try reflexivity.
  destruct stack as [|[a | a [k|]] stack]; reflexivity.
Qed.

(** No JSON text ends with a comma and a closing bracket. *)
Lemma JSON_parse_comma_bracket (x : string) : JSON_parse (x +:+ ",]") = None.
Proof.
  unfold JSON_parse, tokenize. rewrite lex_run_app.
  destruct (lex_run MNormal x) as [[t1 m1]|] eqn:E1; [| reflexivity].
  destruct (lex_run m1 ",]") as [[t2 m2]|] eqn:E2; [| reflexivity].
  destruct (lex_finish m2) as [tf|] eqn:F; [| reflexivity].
  assert (Hm : no_comma_ahead m1)
    by exact (lex_run_no_comma x MNormal t1 m1 I E1).
  destruct (lex_comma_bracket _ _ _ _ Hm E2 F) as (pre & Hp).
  rewrite <- app_assoc, Hp, app_assoc, parse_run_comma_bracket. reflexivity.
Qed.

(** X15: an output that ends with a line break is never parsed by the
    JSON-lines parser: the empty last line leaves a comma before the
    closing bracket, [JSON.parse] throws, and the result is [null] whatever
    the lines and the exit code are. *)
Theorem parseJSONArray_trailing_line_break (stdout : string) (code : option Z) :
  parseJSONArray (stdout +:+ nl) code = JNull.
Proof.
  unfold parseJSONArray. destruct (is_zero code); [| reflexivity].
  rewrite split_line_end, join_empty_last.
  - replace ("[" +:+ (join "," (split nl stdout) +:+ ",") +:+ "]")
      with (("[" +:+ join "," (split nl stdout)) +:+ ",]")
      by now rewrite !sapp_assoc.
    now rewrite JSON_parse_comma_bracket.
  - unfold nl. rewrite split_unfold. discriminate.
Qed.

(** ** A probe that writes the code separator itself *)

Section Forged.

Variables (n a : string) (k d : nat).
Hypothesis Hn : name_ok n = true.
Hypothesis Ha : out_ok a = true.






End Forged.

